(** * merge_qualtrics_dashboard.py: a shallow embedding and its properties

    The script joins a Qualtrics survey export with the dashboard's log
    export on the response identifier.  This file embeds its functions
    ([read_qualtrics_csv], [read_dashboard_csv], [merge_data],
    [write_merged_csv] with the column ordering inside it, [print_summary]
    and [main]) and proves the properties the design document states about
    them, and further properties the code shows.

    Conventions.
    - A Python [str] is the list of its code points ([pystr]); literals are
      written [py "..."].
    - A Python [dict] from [str] to [str] is a [gmap pystr pystr]; a [set]
      of [str] is a [gset pystr].
    - [csv.reader] is taken at its interface: a file is the list of the rows
      it yields, each row a list of cells.
    - In modules [Merge], [Store] and [Writer] log records and survey
      responses hold [str] values, as the data model of the design has
      them.  Modules [Dashboard] and [Raw] take the records as
      [csv.DictReader] builds them, where a field can be [None]. *)

From Stdlib Require Import NArith ZArith String Ascii DecimalString.
From stdpp Require Import base option list gmap sets sorting.

(** ** Python strings *)

Abbreviation pystr := (list N).

Definition py (s : string) : pystr :=
  map N_of_ascii (list_ascii_of_string s).

(** [str.isspace] on one code point: the characters CPython's
    [_PyUnicode_IsWhitespace] accepts. *)
Definition isspace (c : N) : bool :=
  ((0x09 <=? c) && (c <=? 0x0D) || (0x1C <=? c) && (c <=? 0x20)
   || (c =? 0x85) || (c =? 0xA0) || (c =? 0x1680)
   || (0x2000 <=? c) && (c <=? 0x200A)
   || (c =? 0x2028) || (c =? 0x2029) || (c =? 0x202F)
   || (c =? 0x205F) || (c =? 0x3000))%N.

Fixpoint lstrip (s : pystr) : pystr :=
  match s with
  | [] => []
  | c :: s' => if isspace c then lstrip s' else s
  end.

Definition rstrip (s : pystr) : pystr := reverse (lstrip (reverse s)).

(** [s.strip()] *)
Definition strip (s : pystr) : pystr := rstrip (lstrip s).

(** [s.startswith(prefix)] *)
Fixpoint startswith (s prefix : pystr) {struct prefix} : bool :=
  match prefix, s with
  | [], _ => true
  | _ :: _, [] => false
  | p :: prefix', c :: s' => (p =? c)%N && startswith s' prefix'
  end.

(** [a <= b] on [str]: lexicographic on code points, a proper prefix first. *)
Fixpoint str_leb (a b : pystr) : bool :=
  match a, b with
  | [], _ => true
  | _ :: _, [] => false
  | x :: a', y :: b' => (x <? y)%N || (x =? y)%N && str_leb a' b'
  end.

Definition str_le (a b : pystr) : Prop := str_leb a b = true.

#[global] Instance str_le_dec : RelDecision str_le.
Proof. intros a b. unfold str_le. apply _. Defined.

(** [sorted(l)] on a list of [str] *)
Definition sorted (l : list pystr) : list pystr := merge_sort str_le l.

(** [not s] for a string or a list *)
Definition is_empty {A} (l : list A) : bool :=
  match l with [] => true | _ => false end.

(** ** The reserved names *)

Definition ResponseId : pystr := py "ResponseId".
Definition qualtricsResponseId : pystr := py "qualtricsResponseId".
Definition qualtrics_ : pystr := py "qualtrics_".
Definition _match_status : pystr := py "_match_status".
Definition underscore : pystr := py "_".

(** ** Outcomes of a call

    A call returns a value or leaves by an exception; the two the script can
    raise itself are [StopIteration] (from [next(reader)] on an exhausted
    reader) and [SystemExit] (from [sys.exit]).  [ValueError] is what
    [csv.DictWriter] raises on a record with a key outside its fieldnames. *)

Inductive exn : Type :=
  | StopIteration
  | SystemExit (code : Z)
  | ValueError.

Inductive outcome (A : Type) : Type :=
  | Return (a : A)
  | Raise (e : exn).
Arguments Return {A} a.
Arguments Raise {A} e.

(** ** Survey Table Reader: [read_qualtrics_csv] *)

Module Survey.

(** [headers.index(x)]: the first position of [x], [None] for [ValueError] *)
Fixpoint index (x : pystr) (headers : list pystr) : option nat :=
  match headers with
  | [] => None
  | h :: headers' =>
      if decide (h = x) then Some 0 else S <$> index x headers'
  end.

(** [enumerate(l)], counting from [i] *)
Fixpoint enumerate_from {A} (i : nat) (l : list A) : list (nat * A) :=
  match l with
  | [] => []
  | x :: l' => (i, x) :: enumerate_from (S i) l'
  end.

Definition enumerate {A} (l : list A) : list (nat * A) := enumerate_from 0 l.

(** The inner loop, lines 65-70: one assignment per header column. *)
Definition response_dict_step (row : list pystr)
    (response_dict : gmap pystr pystr) (ih : nat * pystr) : gmap pystr pystr :=
  let '(i, header) := ih in
  if (i <? length row)%nat
  then <[header := nth i row []]> response_dict
  else <[header := []]> response_dict.

Definition response_dict (headers row : list pystr) : gmap pystr pystr :=
  foldl (response_dict_step row) ∅ (enumerate headers).

(** The body of the loop over the data rows, lines 57-72. *)
Definition read_row (headers : list pystr) (response_id_idx : nat)
    (qualtrics_data : gmap pystr (gmap pystr pystr)) (row : list pystr)
    : gmap pystr (gmap pystr pystr) :=
  if is_empty row || (length row <=? response_id_idx)%nat then qualtrics_data
  else
    let response_id := strip (nth response_id_idx row []) in
    if is_empty response_id then qualtrics_data
    else <[response_id := response_dict headers row]> qualtrics_data.

(** [rows] is what [csv.reader] yields for the file. *)
Definition read_qualtrics_csv (rows : list (list pystr))
    : outcome (gmap pystr (gmap pystr pystr)) :=
  match rows with
  | headers :: _ :: _ :: data =>
      match index ResponseId headers with
      | None => Raise (SystemExit 1)
      | Some response_id_idx =>
          Return (foldl (read_row headers response_id_idx) ∅ data)
      end
  | _ => Raise StopIteration
  end.

End Survey.

(** ** Merge Engine: [merge_data] *)

Module Merge.

(** The four local accumulators of [merge_data], which are also what it
    returns. *)
Record state : Type := State {
  merged : list (gmap pystr pystr);
  matched_count : nat;
  unmatched_count : nat;
  matched_response_ids : gset pystr
}.

Definition init : state :=
  {| merged := []; matched_count := 0; unmatched_count := 0;
     matched_response_ids := ∅ |}.

(** Lines 134-135: [for key, value in qualtrics_response.items():
    merged_log[f'qualtrics_{key}'] = value].  The items come in the order
    [map_to_list] lists them. *)
Definition add_items (items : list (pystr * pystr))
    (merged_log : gmap pystr pystr) : gmap pystr pystr :=
  foldl (λ merged_log kv, <[qualtrics_ ++ kv.1 := kv.2]> merged_log)
        merged_log items.

Definition add_qualtrics_fields (qualtrics_response merged_log : gmap pystr pystr)
    : gmap pystr pystr :=
  add_items (map_to_list qualtrics_response) merged_log.

(** The body of the loop over the log entries, lines 116-146.  [log.copy()]
    is a new dictionary with the entries of [log]; as a value that is [log]
    itself (module [Store] below keeps the two objects apart). *)
Definition merge_step (qualtrics_data : gmap pystr (gmap pystr pystr))
    (st : state) (log : gmap pystr pystr) : state :=
  let response_id := strip (default [] (log !! qualtricsResponseId)) in
  if is_empty response_id then
    let merged_log := log in
    let merged_log := <[_match_status := py "no_qualtrics_id"]> merged_log in
    {| merged := merged st ++ [merged_log];
       matched_count := matched_count st;
       unmatched_count := unmatched_count st + 1;
       matched_response_ids := matched_response_ids st |}
  else
    match qualtrics_data !! response_id with
    | Some qualtrics_response =>
        let merged_log := log in
        let merged_log := add_qualtrics_fields qualtrics_response merged_log in
        let merged_log := <[_match_status := py "matched"]> merged_log in
        {| merged := merged st ++ [merged_log];
           matched_count := matched_count st + 1;
           unmatched_count := unmatched_count st;
           matched_response_ids := {[response_id]} ∪ matched_response_ids st |}
    | None =>
        let merged_log := log in
        let merged_log :=
          <[_match_status := py "qualtrics_id_not_found"]> merged_log in
        {| merged := merged st ++ [merged_log];
           matched_count := matched_count st;
           unmatched_count := unmatched_count st + 1;
           matched_response_ids := matched_response_ids st |}
    end.

Definition merge_data (qualtrics_data : gmap pystr (gmap pystr pystr))
    (dashboard_logs : list (gmap pystr pystr)) : state :=
  foldl (merge_step qualtrics_data) init dashboard_logs.

End Merge.

(** ** [merge_data] over a store of dictionary objects

    Python dictionaries are objects: [log.copy()] allocates a new one and
    [merged_log[k] = v] updates the object [merged_log] refers to, which
    every other reference to that object sees.  Here the store is the list
    of all dictionary objects, a reference is a position in it, and
    [merge_data] runs in a state monad over it.  A computation is [None]
    when it follows a reference that names no object.  [merge_data] only
    reads the index dictionary and the log list, so the two are passed as
    values that hold references; the dictionaries they refer to live in the
    store, where a write to them would show. *)

Module Store.

Abbreviation ref := nat.

Abbreviation store := (list (gmap pystr pystr)).

Definition M (A : Type) : Type := store → option (A * store).

#[global] Instance M_ret : MRet M := λ A a σ, Some (a, σ).

#[global] Instance M_bind : MBind M := λ A B f m σ,
  match m σ with
  | Some (a, σ') => f a σ'
  | None => None
  end.

(** [d.get(key, dflt)] *)
Definition dict_get (d : ref) (key dflt : pystr) : M pystr := λ σ,
  o ← σ !! d; Some (default dflt (o !! key), σ).

(** [d.copy()]: a new object with the entries of [d] *)
Definition dict_copy (d : ref) : M ref := λ σ,
  o ← σ !! d; Some (length σ, σ ++ [o]).

(** [d[key] = value] *)
Definition dict_setitem (d : ref) (key value : pystr) : M unit := λ σ,
  o ← σ !! d; Some ((), <[d := <[key := value]> o]> σ).

(** [d.items()], read when the loop over it starts *)
Definition dict_items (d : ref) : M (list (pystr * pystr)) := λ σ,
  o ← σ !! d; Some (map_to_list o, σ).

(** [for x in l: body(x)] *)
Fixpoint for_each {A} (l : list A) (body : A → M unit) : M unit :=
  match l with
  | [] => mret ()
  | x :: l' => body x ≫= λ _, for_each l' body
  end.

Record state : Type := State {
  merged : list ref;
  matched_count : nat;
  unmatched_count : nat;
  matched_response_ids : gset pystr
}.

Definition init : state :=
  {| merged := []; matched_count := 0; unmatched_count := 0;
     matched_response_ids := ∅ |}.

(** The loop body, lines 116-146.  The survey index maps an identifier to a
    reference to the response's dictionary. *)
Definition merge_step (qualtrics_data : gmap pystr ref)
    (st : state) (log : ref) : M state :=
  v ← dict_get log qualtricsResponseId [];
  let response_id := strip v in
  if is_empty response_id then
    merged_log ← dict_copy log;
    dict_setitem merged_log _match_status (py "no_qualtrics_id");;
    mret {| merged := merged st ++ [merged_log];
            matched_count := matched_count st;
            unmatched_count := unmatched_count st + 1;
            matched_response_ids := matched_response_ids st |}
  else
    match qualtrics_data !! response_id with
    | Some qualtrics_response =>
        merged_log ← dict_copy log;
        items ← dict_items qualtrics_response;
        for_each items (λ kv,
          dict_setitem merged_log (qualtrics_ ++ kv.1) kv.2);;
        dict_setitem merged_log _match_status (py "matched");;
        mret {| merged := merged st ++ [merged_log];
                matched_count := matched_count st + 1;
                unmatched_count := unmatched_count st;
                matched_response_ids :=
                  {[response_id]} ∪ matched_response_ids st |}
    | None =>
        merged_log ← dict_copy log;
        dict_setitem merged_log _match_status (py "qualtrics_id_not_found");;
        mret {| merged := merged st ++ [merged_log];
                matched_count := matched_count st;
                unmatched_count := unmatched_count st + 1;
                matched_response_ids := matched_response_ids st |}
    end.

Fixpoint merge_loop (qualtrics_data : gmap pystr ref)
    (st : state) (dashboard_logs : list ref) : M state :=
  match dashboard_logs with
  | [] => mret st
  | log :: logs => st' ← merge_step qualtrics_data st log;
                   merge_loop qualtrics_data st' logs
  end.

Definition merge_data (qualtrics_data : gmap pystr ref)
    (dashboard_logs : list ref) : M state :=
  merge_loop qualtrics_data init dashboard_logs.

End Store.

(** ** Merge Engine: [write_merged_csv] *)

Module Writer.

Definition standard_log_keys : list pystr :=
  [py "qualtricsResponseId"; py "userId"; py "studyId"; py "studyName";
   py "ipAddress"; py "action"; py "details"; py "timestamp"; py "url";
   py "articleId"; py "articleTitle"; py "id"].

(** Lines 164-166: the union of the keys of all records. *)
Definition all_keys (merged_data : list (gmap pystr pystr)) : gset pystr :=
  foldl (λ all_keys record, all_keys ∪ dom record) ∅ merged_data.

(** Lines 178-181: the loop over [standard_log_keys]. *)
Definition standard_step (all_keys : gset pystr)
    (acc : list pystr * gset pystr) (key : pystr) : list pystr * gset pystr :=
  let '(ordered_keys, seen) := acc in
  if decide (key ∈ all_keys)
  then (ordered_keys ++ [key], {[key]} ∪ seen)
  else (ordered_keys, seen).

(** Lines 174-195.  Python leaves the order in which a set is iterated
    open; [iter] gives it, and the comprehensions walk [iter all_keys]. *)
Definition ordered_keys (iter : gset pystr → list pystr)
    (all_keys : gset pystr) : list pystr :=
  let '(ordered_keys, seen) :=
    foldl (standard_step all_keys) ([], ∅) standard_log_keys in
  let qualtrics_keys :=
    sorted (filter (λ k, startswith k qualtrics_ ∧ k ∉ seen)
                   (iter all_keys)) in
  let ordered_keys := ordered_keys ++ qualtrics_keys in
  let seen := seen ∪ list_to_set qualtrics_keys in
  let other_keys :=
    sorted (filter (λ k, (k ∉ seen) ∧ ¬ (startswith k underscore))
                   (iter all_keys)) in
  let ordered_keys := ordered_keys ++ other_keys in
  let metadata_keys :=
    sorted (filter (λ k, Is_true (startswith k underscore)) (iter all_keys)) in
  ordered_keys ++ metadata_keys.

(** [csv.DictWriter], with its defaults [restval=''] and
    [extrasaction='raise'], at the level of cells: a record with a key
    outside [fieldnames] raises, a column the record lacks is written
    empty. *)
Definition dict_to_list (fieldnames : list pystr) (rowdict : gmap pystr pystr)
    : outcome (list pystr) :=
  if decide (dom rowdict ⊆ list_to_set fieldnames)
  then Return (map (λ key, default [] (rowdict !! key)) fieldnames)
  else Raise ValueError.

Fixpoint writerows (fieldnames : list pystr)
    (rowdicts : list (gmap pystr pystr)) : outcome (list (list pystr)) :=
  match rowdicts with
  | [] => Return []
  | rowdict :: rowdicts' =>
      match dict_to_list fieldnames rowdict with
      | Raise e => Raise e
      | Return row =>
          match writerows fieldnames rowdicts' with
          | Raise e => Raise e
          | Return rows => Return (row :: rows)
          end
      end
  end.

(** What a call leaves behind: the lines printed and the file written. *)
Record csv_file : Type := CsvFile {
  header : list pystr;
  body : list (list pystr)
}.

Record effects : Type := Effects {
  stdout : list pystr;
  output_file : option csv_file
}.

Definition write_merged_csv (iter : gset pystr → list pystr)
    (merged_data : list (gmap pystr pystr)) : outcome effects :=
  if is_empty merged_data then
    Return {| stdout := [py "No data to write!"]; output_file := None |}
  else
    let all_keys := all_keys merged_data in
    let ordered_keys := ordered_keys iter all_keys in
    match writerows ordered_keys merged_data with
    | Raise e => Raise e
    | Return rows =>
        Return {| stdout := [];
                  output_file :=
                    Some {| header := ordered_keys; body := rows |} |}
    end.

End Writer.

(** ** The vocabulary of the design document *)

(** The identifier of a data row: its cell in the identifier column,
    trimmed. *)
Definition row_id (response_id_idx : nat) (row : list pystr) : pystr :=
  strip (nth response_id_idx row []).

(** A data row the reader is to skip, in the design's words: the row is
    empty, or it ends before the identifier column, or its identifier is
    empty after trimming. *)
Definition dropped (response_id_idx : nat) (row : list pystr) : Prop :=
  row = [] ∨ length row ≤ response_id_idx ∨ row_id response_id_idx row = [].

(** The foreign key of a log record: [qualtricsResponseId], trimmed, the
    empty string when the field is absent. *)
Definition foreign_key (log : gmap pystr pystr) : pystr :=
  strip (default [] (log !! qualtricsResponseId)).

(** The record one pass of the loop of [merge_data] appends for [log]
    (lemma [merge_step_merged] relates it to [Merge.merge_step]). *)
Definition merged_log (qualtrics_data : gmap pystr (gmap pystr pystr))
    (log : gmap pystr pystr) : gmap pystr pystr :=
  if is_empty (foreign_key log) then
    <[_match_status := py "no_qualtrics_id"]> log
  else
    match qualtrics_data !! foreign_key log with
    | Some qualtrics_response =>
        <[_match_status := py "matched"]>
          (Merge.add_qualtrics_fields qualtrics_response log)
    | None => <[_match_status := py "qualtrics_id_not_found"]> log
    end.

(** ** The example of the design document

    Survey file [ResponseId,Q1], two metadata rows, data row [R1,yes]; log
    file [qualtricsResponseId,userId] with row [R1,u42]. *)

Module Ex.

Definition survey_rows : list (list pystr) :=
  [[py "ResponseId"; py "Q1"]; [py "Response ID"; py "Question 1"];
   [py "{ImportId:_recordId}"; py "{ImportId:QID1}"]; [py "R1"; py "yes"]].

Definition response : gmap pystr pystr :=
  <[py "ResponseId" := py "R1"]> (<[py "Q1" := py "yes"]> ∅).

Definition survey : gmap pystr (gmap pystr pystr) := <[py "R1" := response]> ∅.

Definition log : gmap pystr pystr :=
  <[qualtricsResponseId := py "R1"]> (<[py "userId" := py "u42"]> ∅).

(** A log record with a column of its own in the survey's name space. *)
Definition clashing_log : gmap pystr pystr :=
  <[qualtricsResponseId := py "R1"]> (<[py "qualtrics_Q1" := py "old"]> ∅).

(** A store holding the survey response and the log record, the index
    referring to the former, and a log list naming the same log object
    twice. *)
Definition objects : Store.store := [response; log].

Definition survey_refs : gmap pystr Store.ref := <[py "R1" := 0]> ∅.

Definition log_refs : list Store.ref := [1; 1].

End Ex.

(** The survey index as a value: each reference of the index replaced by
    the dictionary it names in the store. *)
Definition deref_index (σ : Store.store) (qualtrics_data : gmap pystr Store.ref)
    : gmap pystr (gmap pystr pystr) :=
  omap (λ r, σ !! r) qualtrics_data.

(** Every reference of the index and of the log list names an object. *)
Definition valid_inputs (σ : Store.store) (qualtrics_data : gmap pystr Store.ref)
    (dashboard_logs : list Store.ref) : Prop :=
  (∀ rid r, qualtrics_data !! rid = Some r → is_Some (σ !! r)) ∧
  Forall (λ log, is_Some (σ !! log)) dashboard_logs.

(** The accumulators of the store-level merge agree with those of the
    value-level merge. *)
Definition counters_agree (st : Store.state) (vst : Merge.state) : Prop :=
  Store.matched_count st = Merge.matched_count vst ∧
  Store.unmatched_count st = Merge.unmatched_count vst ∧
  Store.matched_response_ids st = Merge.matched_response_ids vst.

(** A log record that finds its survey response: it has a foreign key and
    the key is in the survey index. *)
Definition matches (qualtrics_data : gmap pystr (gmap pystr pystr))
    (log : gmap pystr pystr) : Prop :=
  foreign_key log ≠ [] ∧ foreign_key log ∈ dom qualtrics_data.

#[global] Instance matches_dec qualtrics_data log :
  Decision (matches qualtrics_data log).
Proof. unfold matches. apply _. Defined.

(** ** Log Table Reader: [read_dashboard_csv] *)

Module Dashboard.

(** A dictionary as [csv.DictReader] builds it.  A named field holds a cell,
    or [None] (the reader's [restval]) when the row ended before the
    field's column; the cells of a row beyond the header, if any, are
    collected in a list under the key [None] (the reader's [restkey]),
    which is [rest] here. *)
Record record : Type := MkRecord {
  fields : gmap pystr (option pystr);
  rest : option (list pystr)
}.

(** [dict(zip(fieldnames, row))] *)
Definition zip_dict (fieldnames row : list pystr) : gmap pystr (option pystr) :=
  foldl (λ d kv, <[kv.1 := Some kv.2]> d) ∅ (zip fieldnames row).

(** [DictReader.__next__] on a non-empty row: the zipped dictionary, then
    [d[restkey] = row[lf:]] for a long row and [d[key] = restval] for each
    [key] of [fieldnames[lr:]] for a short one. *)
Definition to_record (fieldnames row : list pystr) : record :=
  let d := zip_dict fieldnames row in
  let lf := length fieldnames in
  let lr := length row in
  if (lf <? lr)%nat then {| fields := d; rest := Some (drop lf row) |}
  else if (lr <? lf)%nat then
    {| fields := foldl (λ d key, <[key := None]> d) d (drop lr fieldnames);
       rest := None |}
  else {| fields := d; rest := None |}.

(** [rows] is what [csv.reader] yields for the file.  [DictReader] takes the
    first row as the field names and passes over empty rows. *)
Definition read_dashboard_csv (rows : list (list pystr)) : list record :=
  match rows with
  | [] => []
  | fieldnames :: data =>
      to_record fieldnames <$> filter (λ row, row ≠ []) data
  end.

End Dashboard.

(** ** The functions on the records the log reader yields

    [merge_data], [write_merged_csv] and [print_summary] as [main] runs
    them: on [Dashboard.record]s, whose fields may be [None].  A method
    call on [None] raises [AttributeError]. *)

Module Raw.

Import Dashboard.

Inductive failure : Type :=
  | AttributeError
  | Exception (e : exn).

Inductive result (A : Type) : Type :=
  | Ok (a : A)
  | Fail (f : failure).
Arguments Ok {A} a.
Arguments Fail {A} f.

(** [log.get('qualtricsResponseId', '').strip()] *)
Definition response_id_of (log : record) : result pystr :=
  match default (Some []) (fields log !! qualtricsResponseId) with
  | Some v => Ok (strip v)
  | None => Fail AttributeError
  end.

(** [d[key] = value] for a string [value] *)
Definition setitem (key value : pystr) (d : record) : record :=
  {| fields := <[key := Some value]> (fields d); rest := rest d |}.

Definition add_items (items : list (pystr * pystr)) (merged_log : record)
    : record :=
  foldl (λ merged_log kv, setitem (qualtrics_ ++ kv.1) kv.2 merged_log)
        merged_log items.

Record state : Type := State {
  merged : list record;
  matched_count : nat;
  unmatched_count : nat;
  matched_response_ids : gset pystr
}.

Definition init : state :=
  {| merged := []; matched_count := 0; unmatched_count := 0;
     matched_response_ids := ∅ |}.

(** The loop body of [merge_data], lines 116-146. *)
Definition merge_step (qualtrics_data : gmap pystr (gmap pystr pystr))
    (st : state) (log : record) : result state :=
  match response_id_of log with
  | Fail f => Fail f
  | Ok response_id =>
      if is_empty response_id then
        let merged_log := log in
        let merged_log := setitem _match_status (py "no_qualtrics_id") merged_log in
        Ok {| merged := merged st ++ [merged_log];
              matched_count := matched_count st;
              unmatched_count := unmatched_count st + 1;
              matched_response_ids := matched_response_ids st |}
      else
        match qualtrics_data !! response_id with
        | Some qualtrics_response =>
            let merged_log := log in
            let merged_log :=
              add_items (map_to_list qualtrics_response) merged_log in
            let merged_log := setitem _match_status (py "matched") merged_log in
            Ok {| merged := merged st ++ [merged_log];
                  matched_count := matched_count st + 1;
                  unmatched_count := unmatched_count st;
                  matched_response_ids :=
                    {[response_id]} ∪ matched_response_ids st |}
        | None =>
            let merged_log := log in
            let merged_log :=
              setitem _match_status (py "qualtrics_id_not_found") merged_log in
            Ok {| merged := merged st ++ [merged_log];
                  matched_count := matched_count st;
                  unmatched_count := unmatched_count st + 1;
                  matched_response_ids := matched_response_ids st |}
        end
  end.

Fixpoint merge_loop (qualtrics_data : gmap pystr (gmap pystr pystr))
    (st : state) (dashboard_logs : list record) : result state :=
  match dashboard_logs with
  | [] => Ok st
  | log :: logs =>
      match merge_step qualtrics_data st log with
      | Fail f => Fail f
      | Ok st' => merge_loop qualtrics_data st' logs
      end
  end.

Definition merge_data (qualtrics_data : gmap pystr (gmap pystr pystr))
    (dashboard_logs : list record) : result state :=
  merge_loop qualtrics_data init dashboard_logs.

(** Lines 164-166, the keys that are strings; the key [None] is in the
    union when some record has a [rest]. *)
Definition all_keys (merged_data : list record) : gset pystr :=
  foldl (λ all_keys record, all_keys ∪ dom (fields record)) ∅ merged_data.

Definition has_rest (record : record) : bool :=
  match rest record with Some _ => true | None => false end.

(** The cell [csv.DictWriter] writes for a column: [rowdict.get(key, '')],
    with [None] written as the empty string. *)
Definition cell (rowdict : record) (key : pystr) : pystr :=
  match fields rowdict !! key with
  | Some (Some v) => v
  | _ => []
  end.

Definition dict_to_list (fieldnames : list pystr) (rowdict : record)
    : result (list pystr) :=
  if decide (dom (fields rowdict) ⊆ list_to_set fieldnames
             ∧ rest rowdict = None)
  then Ok (cell rowdict <$> fieldnames)
  else Fail (Exception ValueError).

(** [writer.writerows]: the rows written, and the failure that ended the
    writing if there was one. *)
Fixpoint writerows (fieldnames : list pystr) (rowdicts : list record)
    : list (list pystr) * option failure :=
  match rowdicts with
  | [] => ([], None)
  | rowdict :: rowdicts' =>
      match dict_to_list fieldnames rowdict with
      | Fail f => ([], Some f)
      | Ok row =>
          let '(rows, f) := writerows fieldnames rowdicts' in (row :: rows, f)
      end
  end.

(** [write_merged_csv]: what it leaves behind and how it ends.  With the
    key [None] among the keys, [k.startswith('qualtrics_')] of line 184
    raises before the file is opened. *)
Definition write_merged_csv (iter : gset pystr → list pystr)
    (merged_data : list record) : Writer.effects * option failure :=
  if is_empty merged_data then
    ({| Writer.stdout := [py "No data to write!"];
        Writer.output_file := None |}, None)
  else if existsb has_rest merged_data then
    ({| Writer.stdout := []; Writer.output_file := None |},
     Some AttributeError)
  else
    let ordered_keys := Writer.ordered_keys iter (all_keys merged_data) in
    let '(rows, f) := writerows ordered_keys merged_data in
    ({| Writer.stdout := [];
        Writer.output_file :=
          Some {| Writer.header := ordered_keys; Writer.body := rows |} |}, f).

(** [str(n)] for a count *)
Definition str_of_nat (n : nat) : pystr :=
  py (NilEmpty.string_of_uint (Nat.to_uint n)).

(** [sep.join(l)] *)
Fixpoint join (sep : pystr) (l : list pystr) : pystr :=
  match l with
  | [] => []
  | [x] => x
  | x :: l' => x ++ sep ++ join sep l'
  end.

Definition newline : pystr := [10%N].

(** ["=" * 70] *)
Definition rule : pystr := replicate 70 61%N.

(** Line 228: the survey identifiers no log record matched. *)
Definition unmatched_qualtrics (qualtrics_data : gmap pystr (gmap pystr pystr))
    (matched_response_ids : gset pystr) : gset pystr :=
  dom qualtrics_data ∖ matched_response_ids.

(** Line 237: [sum(1 for log in dashboard_logs if not
    log.get('qualtricsResponseId', '').strip())]. *)
Fixpoint logs_without_id (dashboard_logs : list record) : result nat :=
  match dashboard_logs with
  | [] => Ok 0
  | log :: logs =>
      match response_id_of log with
      | Fail f => Fail f
      | Ok response_id =>
          match logs_without_id logs with
          | Fail f => Fail f
          | Ok n => Ok (if is_empty response_id then 1 + n else n)
          end
      end
  end.

(** [print_summary]: the lines printed, one per call of [print], and the
    failure that ended it if there was one. *)
Definition print_summary (iter : gset pystr → list pystr)
    (qualtrics_data : gmap pystr (gmap pystr pystr))
    (dashboard_logs : list record)
    (matched_count unmatched_count : nat)
    (matched_response_ids : gset pystr) : list pystr * option failure :=
  let head :=
    [newline ++ rule;
     py "MERGE SUMMARY";
     rule;
     py "Qualtrics responses loaded: " ++ str_of_nat (size qualtrics_data);
     py "Dashboard log entries loaded: "
       ++ str_of_nat (length dashboard_logs);
     newline ++ py "Matched log entries: " ++ str_of_nat matched_count;
     py "Unmatched log entries: " ++ str_of_nat unmatched_count;
     py "Unique Qualtrics ResponseIds matched: "
       ++ str_of_nat (size matched_response_ids)] in
  let unmatched_qualtrics :=
    unmatched_qualtrics qualtrics_data matched_response_ids in
  let unmatched_lines :=
    if decide (unmatched_qualtrics = ∅) then []
    else
      [newline ++ py "Qualtrics responses with no matching logs: "
         ++ str_of_nat (size unmatched_qualtrics);
       if (size unmatched_qualtrics <=? 10)%nat then
         py "  ResponseIds: "
           ++ join (py ", ") (sorted (iter unmatched_qualtrics))
       else
         py "  ResponseIds (first 10): "
           ++ join (py ", ") (take 10 (sorted (iter unmatched_qualtrics)))
           ++ py "..."] in
  match logs_without_id dashboard_logs with
  | Fail f => (head ++ unmatched_lines, Some f)
  | Ok logs_without_id =>
      let without_id_lines :=
        if (0 <? logs_without_id)%nat then
          [newline ++ py "Log entries without qualtricsResponseId: "
             ++ str_of_nat logs_without_id]
        else [] in
      (head ++ unmatched_lines ++ without_id_lines ++ [rule ++ newline], None)
  end.

(** [main], from the checks of the input files on.  An input file is given
    by the rows [csv.reader] yields for it, [None] when the file does not
    exist.  The result is the file written, if any, and how the run ends;
    what [main] prints is not kept. *)
Definition main (iter : gset pystr → list pystr)
    (qualtrics_file dashboard_file : option (list (list pystr)))
    : option Writer.csv_file * result unit :=
  match qualtrics_file with
  | None => (None, Fail (Exception (SystemExit 1)))
  | Some qualtrics_rows =>
      match dashboard_file with
      | None => (None, Fail (Exception (SystemExit 1)))
      | Some dashboard_rows =>
          match Survey.read_qualtrics_csv qualtrics_rows with
          | Raise e => (None, Fail (Exception e))
          | Return qualtrics_data =>
              let dashboard_logs := read_dashboard_csv dashboard_rows in
              match merge_data qualtrics_data dashboard_logs with
              | Fail f => (None, Fail f)
              | Ok st =>
                  let '(written, f) := write_merged_csv iter (merged st) in
                  match f with
                  | Some f => (Writer.output_file written, Fail f)
                  | None =>
                      match print_summary iter qualtrics_data dashboard_logs
                              (matched_count st) (unmatched_count st)
                              (matched_response_ids st) with
                      | (_, Some f) => (Writer.output_file written, Fail f)
                      | (_, None) => (Writer.output_file written, Ok ())
                      end
                  end
              end
          end
      end
  end.

End Raw.

(** A log record all of whose fields are strings, as a [Dashboard.record]. *)
Definition plain (log : gmap pystr pystr) : Dashboard.record :=
  {| Dashboard.fields := Some <$> log; Dashboard.rest := None |}.

(** The string-valued fields of a record: those that are not [None]. *)
Definition strs (log : Dashboard.record) : gmap pystr pystr :=
  omap id (Dashboard.fields log).

(** The record [log] with the string fields [d] written over it. *)
Definition lift (log : Dashboard.record) (d : gmap pystr pystr)
    : Dashboard.record :=
  {| Dashboard.fields := (Some <$> d) ∪ Dashboard.fields log;
     Dashboard.rest := Dashboard.rest log |}.

(** A record whose [qualtricsResponseId] is [None]: on it [.strip()] has
    nothing to be called on. *)
Definition id_is_None (log : Dashboard.record) : Prop :=
  Dashboard.fields log !! qualtricsResponseId = Some None.

#[global] Instance id_is_None_dec log : Decision (id_is_None log).
Proof. unfold id_is_None. apply _. Defined.

Definition raw_counters_agree (st : Raw.state) (vst : Merge.state) : Prop :=
  Raw.matched_count st = Merge.matched_count vst ∧
  Raw.unmatched_count st = Merge.unmatched_count vst ∧
  Raw.matched_response_ids st = Merge.matched_response_ids vst.

(** A row of the log file that [main] gets through: no longer than the
    header, and with no column named [qualtricsResponseId] beyond its
    end. *)
Definition log_row_ok (fieldnames row : list pystr) : Prop :=
  length row ≤ length fieldnames ∧
  qualtricsResponseId ∉ drop (length row) fieldnames.

#[global] Instance log_row_ok_dec fieldnames row :
  Decision (log_row_ok fieldnames row).
Proof. unfold log_row_ok. apply _. Defined.

(** The header and the data rows [csv.DictReader] takes from a file. *)
Definition log_fieldnames (rows : list (list pystr)) : list pystr :=
  default [] (head rows).

Definition log_data (rows : list (list pystr)) : list (list pystr) :=
  filter (λ row, row ≠ []) (tail rows).

(** The log file of the example, and what [merge_data] returns on it. *)

Module ExRun.

Definition log_rows : list (list pystr) :=
  [[py "qualtricsResponseId"; py "userId"]; [py "R1"; py "u42"]].

Definition merged_state : Raw.state :=
  {| Raw.merged := [plain (merged_log Ex.survey Ex.log)];
     Raw.matched_count := 1;
     Raw.unmatched_count := 0;
     Raw.matched_response_ids := {[py "R1"]} |}.



End ExRun.

(** * Properties *)

(** ** Strings *)

Lemma startswith_spec (s prefix : pystr) :
  startswith s prefix = true ↔ ∃ t, s = prefix ++ t.
Proof.
  revert s. induction prefix as [|p prefix IH]; intros s; simpl.
  - split; [intros _; by exists s | done].
  - destruct s as [|c s].
    + split; [discriminate | intros [t ?]; discriminate].
    + rewrite andb_true_iff, N.eqb_eq, IH. split.
      * intros [-> [t ->]]. by exists t.
      * intros [t [= -> ->]]. eauto.
Qed.

Lemma startswith_app (prefix t : pystr) : startswith (prefix ++ t) prefix = true.
Proof. apply startswith_spec. by exists t. Qed.

Lemma startswith_false_ne (s prefix t : pystr) :
  startswith s prefix = false → s ≠ prefix ++ t.
Proof. intros Hs ->. by rewrite startswith_app in Hs. Qed.

Lemma is_empty_true {A} (l : list A) : is_empty l = true ↔ l = [].
Proof. by destruct l. Qed.

Lemma is_empty_false {A} (l : list A) : is_empty l = false ↔ l ≠ [].
Proof. by destruct l. Qed.

#[global] Instance str_le_refl : Reflexive str_le.
Proof.
  intros a. unfold str_le. induction a as [|x a IH]; simpl; [done|].
  by rewrite N.eqb_refl, IH, orb_true_r.
Qed.

Lemma str_leb_cons (x y : N) (a b : pystr) :
  str_leb (x :: a) (y :: b) = true ↔ (x < y)%N ∨ x = y ∧ str_leb a b = true.
Proof.
  simpl. by rewrite orb_true_iff, andb_true_iff, N.ltb_lt, N.eqb_eq.
Qed.

#[global] Instance str_le_total : Total str_le.
Proof.
  intros a. unfold str_le. induction a as [|x a IH]; intros [|y b]; auto.
  rewrite !str_leb_cons.
  destruct (N.lt_total x y) as [?|[->|?]]; auto.
  destruct (IH b); auto.
Qed.

#[global] Instance str_le_trans : Transitive str_le.
Proof.
  intros a. unfold str_le.
  induction a as [|x a IH]; intros [|y b] [|z c]; try done.
  rewrite !str_leb_cons. intros [?|[-> ?]] [?|[-> ?]]; eauto.
  left. by etrans.
Qed.

#[global] Instance str_le_antisym : AntiSymm (=) str_le.
Proof.
  intros a. unfold str_le. induction a as [|x a IH]; intros [|y b]; try done.
  rewrite !str_leb_cons. intros [?|[-> ?]] [?|[? ?]]; try lia.
  f_equal. by apply IH.
Qed.

Lemma sorted_Permutation (l : list pystr) : sorted l ≡ₚ l.
Proof. apply merge_sort_Permutation. Qed.

Lemma sorted_StronglySorted (l : list pystr) : StronglySorted str_le (sorted l).
Proof. apply StronglySorted_merge_sort; apply _. Qed.

Lemma elem_of_sorted (l : list pystr) (k : pystr) : k ∈ sorted l ↔ k ∈ l.
Proof. by rewrite sorted_Permutation. Qed.

(** [sorted] forgets the order of its argument. *)
Lemma sorted_perm_eq (l1 l2 : list pystr) : l1 ≡ₚ l2 → sorted l1 = sorted l2.
Proof.
  intros Hp. apply (StronglySorted_unique str_le).
  - apply sorted_StronglySorted.
  - apply sorted_StronglySorted.
  - by rewrite !sorted_Permutation.
Qed.

(** ** The Survey Table Reader *)

Section survey.
Import Survey.
Implicit Types (headers row : list pystr) (data : list (list pystr)).
Implicit Types (qualtrics_data : gmap pystr (gmap pystr pystr)).

Lemma index_Some x headers i :
  index x headers = Some i → headers !! i = Some x.
Proof.
  revert i. induction headers as [|h headers IH]; intros i; simpl; [done|].
  case_decide as Hh.
  - intros [= <-]. by rewrite Hh.
  - destruct (index x headers) as [j|]; simpl; [|done].
    intros [= <-]. by apply IH.
Qed.

Lemma index_is_Some x headers : x ∈ headers → is_Some (index x headers).
Proof.
  induction headers as [|h headers IH]; [by intros ?%elem_of_nil|].
  intros Hx. simpl. case_decide as Hh; [eauto|].
  apply elem_of_cons in Hx as [->|Hx]; [done|].
  destruct (IH Hx) as [j ->]. simpl. eauto.
Qed.

Lemma enumerate_from_snoc {A} (l : list A) x i :
  enumerate_from i (l ++ [x]) = enumerate_from i l ++ [(i + length l, x)].
Proof.
  revert i. induction l as [|y l IH]; intros i; simpl.
  - by rewrite Nat.add_0_r.
  - by rewrite IH, Nat.add_succ_r.
Qed.

(** The cell the inner loop stores for column [i]. *)
Lemma response_dict_snoc headers h row :
  response_dict (headers ++ [h]) row =
  <[h := default [] (row !! length headers)]> (response_dict headers row).
Proof.
  unfold response_dict, enumerate.
  rewrite enumerate_from_snoc, foldl_app. simpl.
  destruct (Nat.ltb_spec (length headers) (length row)) as [Hlt|Hge].
  - destruct (lookup_lt_is_Some_2 row _ Hlt) as [v Hv].
    rewrite Hv. simpl. by rewrite (nth_lookup_Some _ _ _ _ Hv).
  - by rewrite (lookup_ge_None_2 row _ Hge).
Qed.

Lemma response_dict_nil row : response_dict [] row = ∅.
Proof. done. Qed.

Lemma dom_response_dict headers row :
  dom (response_dict headers row) = list_to_set headers.
Proof.
  induction headers as [|h headers IH] using rev_ind.
  - by rewrite response_dict_nil, dom_empty_L.
  - rewrite response_dict_snoc, dom_insert_L, IH, list_to_set_snoc_L.
    apply union_comm_L.
Qed.

(** A column past the end of the row is stored empty, whatever the
    names of the other columns. *)
Lemma response_dict_absent headers row i h :
  headers !! i = Some h → length row ≤ i →
  response_dict headers row !! h = Some [].
Proof.
  revert i. induction headers as [|h' headers IH] using rev_ind;
    intros i Hi Hlen; [done|].
  rewrite response_dict_snoc.
  destruct (decide (h' = h)) as [->|Hne].
  - rewrite lookup_insert_eq. f_equal.
    rewrite lookup_ge_None_2; [done|].
    apply lookup_lt_Some in Hi. rewrite length_app in Hi. simpl in Hi. lia.
  - rewrite lookup_insert_ne by done.
    apply (IH i); [|done].
    apply lookup_app_Some in Hi as [Hi|[_ Hi]]; [done|].
    by apply list_lookup_singleton_Some in Hi as [_ ?].
Qed.

(** A column inside the row is stored with the row's cell, when no later
    column repeats its name. *)
Lemma response_dict_present headers row i h v :
  headers !! i = Some h → row !! i = Some v →
  (∀ j, i < j → headers !! j ≠ Some h) →
  response_dict headers row !! h = Some v.
Proof.
  revert i. induction headers as [|h' headers IH] using rev_ind;
    intros i Hi Hv Hlast; [done|].
  rewrite response_dict_snoc.
  destruct (decide (h' = h)) as [->|Hne].
  - rewrite lookup_insert_eq. f_equal.
    destruct (decide (i = length headers)) as [->|Hi'].
    + by rewrite Hv.
    + exfalso. apply (Hlast (length headers)).
      * apply lookup_lt_Some in Hi. rewrite length_app in Hi.
        simpl in Hi. lia.
      * by rewrite lookup_app_r, Nat.sub_diag.
  - rewrite lookup_insert_ne by done.
    assert (headers !! i = Some h) as Hi'.
    { apply lookup_app_Some in Hi as [Hi|[_ Hi]]; [done|].
      by apply list_lookup_singleton_Some in Hi as [_ ?]. }
    apply (IH i); [done..|].
    intros j Hj Hj'. apply (Hlast j Hj).
    by rewrite lookup_app_l by (by eapply lookup_lt_Some).
Qed.
End survey.

Section reader.
Import Survey.
Implicit Types (headers row : list pystr) (data : list (list pystr)).
Implicit Types (qualtrics_data : gmap pystr (gmap pystr pystr)).

Lemma read_row_dropped headers idx qualtrics_data row :
  dropped idx row → read_row headers idx qualtrics_data row = qualtrics_data.
Proof.
  unfold dropped, row_id, read_row. intros [->|[Hlen|Hid]]; [done|..].
  - apply Nat.leb_le in Hlen. by rewrite Hlen, orb_true_r.
  - rewrite Hid. simpl. by destruct (_ || _).
Qed.

Lemma read_row_retained headers idx qualtrics_data row :
  ¬ dropped idx row →
  read_row headers idx qualtrics_data row =
  <[row_id idx row := response_dict headers row]> qualtrics_data.
Proof.
  unfold dropped, row_id, read_row. intros Hkeep.
  destruct (is_empty row) eqn:Hrow.
  { apply is_empty_true in Hrow. tauto. }
  destruct (Nat.leb_spec (length row) idx) as [?|_]; [tauto|]. simpl.
  destruct (is_empty (strip (nth idx row []))) eqn:Hid; [|done].
  apply is_empty_true in Hid. tauto.
Qed.

Lemma dropped_dec idx row : dropped idx row ∨ ¬ dropped idx row.
Proof.
  unfold dropped. destruct (decide (row = [])); [auto|].
  destruct (decide (length row ≤ idx)); [auto|].
  destruct (decide (row_id idx row = [])); [auto|]. right. tauto.
Qed.

Lemma read_rows_dom headers idx qualtrics_data data rid :
  rid ∈ dom (foldl (read_row headers idx) qualtrics_data data) ↔
  rid ∈ dom qualtrics_data ∨
  ∃ row, row ∈ data ∧ ¬ dropped idx row ∧ row_id idx row = rid.
Proof.
  revert qualtrics_data.
  induction data as [|row data IH]; intros qualtrics_data; simpl.
  - split; [auto|]. intros [?|(row & []%elem_of_nil & _)]. done.
  - rewrite IH. destruct (dropped_dec idx row) as [Hd|Hk].
    + rewrite read_row_dropped by done. split.
      * intros [?|(r & ? & ? & ?)]; [auto|].
        right. exists r. by rewrite elem_of_cons; auto.
      * intros [?|(r & [->|?]%elem_of_cons & ? & ?)]; [auto|done|eauto].
    + rewrite read_row_retained, dom_insert_L, elem_of_union,
        elem_of_singleton by done. split.
      * intros [[->|?]|(r & ? & ? & ?)]; [|auto|].
        -- right. exists row. by rewrite elem_of_cons; auto.
        -- right. exists r. by rewrite elem_of_cons; auto.
      * intros [?|(r & [->|?]%elem_of_cons & ? & ?)]; [auto|auto|eauto].
Qed.

(** Rows that are skipped or carry another identifier leave the entry of
    [rid] as it is. *)
Lemma read_rows_lookup_other headers idx qualtrics_data data rid :
  (∀ row, row ∈ data → dropped idx row ∨ row_id idx row ≠ rid) →
  foldl (read_row headers idx) qualtrics_data data !! rid =
  qualtrics_data !! rid.
Proof.
  revert qualtrics_data.
  induction data as [|row data IH]; intros qualtrics_data Hrest; [done|].
  simpl. rewrite IH by (intros r Hr; apply Hrest; by right).
  destruct (Hrest row) as [Hd|Hne]; [by left|..].
  - by rewrite read_row_dropped.
  - destruct (dropped_dec idx row) as [Hd|Hk].
    + by rewrite read_row_dropped.
    + by rewrite read_row_retained, lookup_insert_ne.
Qed.

Lemma read_rows_last headers idx qualtrics_data data1 row data2 :
  ¬ dropped idx row →
  (∀ r, r ∈ data2 → dropped idx r ∨ row_id idx r ≠ row_id idx row) →
  foldl (read_row headers idx) qualtrics_data (data1 ++ row :: data2)
    !! row_id idx row = Some (response_dict headers row).
Proof.
  intros Hk Hrest. rewrite foldl_app. simpl.
  rewrite read_rows_lookup_other by done.
  by rewrite read_row_retained, lookup_insert_eq.
Qed.

Lemma read_rows_skip headers idx qualtrics_data data1 row data2 :
  dropped idx row →
  foldl (read_row headers idx) qualtrics_data (data1 ++ row :: data2) =
  foldl (read_row headers idx) qualtrics_data (data1 ++ data2).
Proof.
  intros Hd. rewrite !foldl_app. simpl. by rewrite read_row_dropped.
Qed.
End reader.

Section reader_claims.
Import Survey.

(** C7 (amended).  For every retained data row the reader stores a field
    mapping whose keys are exactly the header row's column names; a column
    past the end of the row maps to the empty string; a column inside the
    row maps to the row's cell at that position, provided no later column
    of the header has the same name. *)
Theorem read_row_field_mapping
    (headers row : list pystr) (idx : nat)
    (qualtrics_data : gmap pystr (gmap pystr pystr)) :
  ¬ dropped idx row →
  ∃ d, read_row headers idx qualtrics_data row !! row_id idx row = Some d ∧
    dom d = list_to_set headers ∧
    (∀ i h, headers !! i = Some h → length row ≤ i → d !! h = Some []) ∧
    (∀ i h v, headers !! i = Some h → row !! i = Some v →
       (∀ j, i < j → headers !! j ≠ Some h) → d !! h = Some v).
Proof.
  intros Hk. exists (response_dict headers row).
  rewrite read_row_retained, lookup_insert_eq by done.
  split_and!; [done|apply dom_response_dict|..].
  - intros i h. apply response_dict_absent.
  - intros i h v. apply response_dict_present.
Qed.

(** C8.  With the identifier column found, the reader returns a mapping
    without raising; a data row that is empty, ends before the identifier
    column, or has an empty trimmed identifier is dropped (the result is
    the same without it); every other data row has its identifier among
    the keys of the mapping, and every key comes from such a row. *)
Theorem read_qualtrics_csv_drops
    (headers meta1 meta2 : list pystr) (data : list (list pystr)) (idx : nat) :
  index ResponseId headers = Some idx →
  ∃ qualtrics_data,
    read_qualtrics_csv (headers :: meta1 :: meta2 :: data)
      = Return qualtrics_data ∧
    (∀ data1 row data2, data = data1 ++ row :: data2 → dropped idx row →
       read_qualtrics_csv (headers :: meta1 :: meta2 :: data1 ++ data2)
         = Return qualtrics_data) ∧
    (∀ row, row ∈ data → ¬ dropped idx row →
       row_id idx row ∈ dom qualtrics_data) ∧
    (∀ rid, rid ∈ dom qualtrics_data →
       ∃ row, row ∈ data ∧ ¬ dropped idx row ∧ row_id idx row = rid).
Proof.
  intros Hidx. simpl. rewrite Hidx. eexists. split_and!; [done|..].
  - intros data1 row data2 -> Hd. by rewrite read_rows_skip.
  - intros row Hrow Hk. apply read_rows_dom. right. eauto.
  - intros rid [Hrid|Hrid]%read_rows_dom; [|done].
    by rewrite dom_empty_L in Hrid.
Qed.
End reader_claims.

Lemma read_row_field_mapping_witness :
  ∃ d, Survey.read_row [py "ResponseId"; py "Q1"; py "Q2"] 0 ∅ [py "R1"; py "yes"]
         !! row_id 0 [py "R1"; py "yes"] = Some d ∧
    dom d = list_to_set [py "ResponseId"; py "Q1"; py "Q2"] ∧
    (∀ i h, [py "ResponseId"; py "Q1"; py "Q2"] !! i = Some h →
       length [py "R1"; py "yes"] ≤ i → d !! h = Some []) ∧
    (∀ i h v, [py "ResponseId"; py "Q1"; py "Q2"] !! i = Some h →
       [py "R1"; py "yes"] !! i = Some v →
       (∀ j, i < j → [py "ResponseId"; py "Q1"; py "Q2"] !! j ≠ Some h) →
       d !! h = Some v).
Proof.
  apply (read_row_field_mapping [py "ResponseId"; py "Q1"; py "Q2"]
           [py "R1"; py "yes"] 0 ∅).
  intros [H|[H|H]]; [discriminate H|simpl in H; lia|discriminate H].
Defined.

Lemma read_qualtrics_csv_drops_witness :
  ∃ qualtrics_data,
    Survey.read_qualtrics_csv
      ([py "ResponseId"; py "Q1"] :: [] :: [] :: [[py "R1"; py "yes"]; []])
      = Return qualtrics_data ∧
    (∀ data1 row data2, [[py "R1"; py "yes"]; []] = data1 ++ row :: data2 →
       dropped 0 row →
       Survey.read_qualtrics_csv
         ([py "ResponseId"; py "Q1"] :: [] :: [] :: data1 ++ data2)
         = Return qualtrics_data) ∧
    (∀ row, row ∈ [[py "R1"; py "yes"]; []] → ¬ dropped 0 row →
       row_id 0 row ∈ dom qualtrics_data) ∧
    (∀ rid, rid ∈ dom qualtrics_data →
       ∃ row, row ∈ [[py "R1"; py "yes"]; []] ∧ ¬ dropped 0 row ∧
              row_id 0 row = rid).
Proof.
  apply (read_qualtrics_csv_drops [py "ResponseId"; py "Q1"] [] []
           [[py "R1"; py "yes"]; []] 0).
  reflexivity.
Defined.

(** C7, as stated, fails when the header repeats a column name: with header
    [ResponseId,Q1,Q1] and row [R1,a,b] the column at position 1 is inside
    the row and holds [a], but the mapping has [b] under [Q1]. *)
Lemma read_row_repeated_header_counterexample :
  ¬ (∀ (headers row : list pystr) (idx : nat)
       (qualtrics_data : gmap pystr (gmap pystr pystr)),
       ¬ dropped idx row →
       ∃ d, Survey.read_row headers idx qualtrics_data row !! row_id idx row
              = Some d ∧
         dom d = list_to_set headers ∧
         (∀ i h, headers !! i = Some h → length row ≤ i → d !! h = Some []) ∧
         (∀ i h v, headers !! i = Some h → row !! i = Some v →
            d !! h = Some v)).
Proof.
  intros Hclaim.
  destruct (Hclaim [py "ResponseId"; py "Q1"; py "Q1"]
              [py "R1"; py "a"; py "b"] 0 ∅) as (d & Hd & _ & _ & Hcell).
  { intros [H|[H|H]]; [discriminate H|simpl in H; lia|discriminate H]. }
  specialize (Hcell 1 (py "Q1") (py "a") eq_refl eq_refl).
  vm_compute in Hd. injection Hd as <-.
  vm_compute in Hcell. discriminate Hcell.
Qed.

(** ** The Merge Engine: [merge_data] *)

Section merge.
Import Merge.
Implicit Types (qualtrics_data : gmap pystr (gmap pystr pystr)).
Implicit Types (log m resp : gmap pystr pystr).
Implicit Types (items : list (pystr * pystr)).

Lemma add_items_other items m k :
  (∀ kv, kv ∈ items → k ≠ qualtrics_ ++ kv.1) →
  add_items items m !! k = m !! k.
Proof.
  revert m. induction items as [|kv items IH]; intros m Hk; [done|].
  simpl. rewrite IH by (intros kv' ?; apply Hk; by right).
  apply lookup_insert_ne. intros Heq. by apply (Hk kv); [left|].
Qed.

Lemma add_items_here items m k v :
  NoDup items.*1 → (k, v) ∈ items →
  add_items items m !! (qualtrics_ ++ k) = Some v.
Proof.
  revert m. induction items as [|[k' v'] items IH]; intros m Hnd Hin.
  - by apply elem_of_nil in Hin.
  - apply NoDup_cons in Hnd as [Hk' Hnd]. simpl.
    apply elem_of_cons in Hin as [[= <- <-]|Hin]; [|by apply IH].
    rewrite add_items_other; [by rewrite lookup_insert_eq|].
    intros [k2 v2] Hin2 Heq%(inj (app qualtrics_)). simpl in Heq. subst k2.
    apply Hk'. apply list_elem_of_fmap. by exists (k, v2).
Qed.

Lemma add_qualtrics_fields_here resp m k v :
  resp !! k = Some v →
  add_qualtrics_fields resp m !! (qualtrics_ ++ k) = Some v.
Proof.
  intros Hk. apply add_items_here.
  - apply NoDup_fst_map_to_list.
  - by apply elem_of_map_to_list.
Qed.

Lemma add_qualtrics_fields_other resp m k :
  (∀ k', k' ∈ dom resp → k ≠ qualtrics_ ++ k') →
  add_qualtrics_fields resp m !! k = m !! k.
Proof.
  intros Hk. apply add_items_other. intros [k' v'] Hin.
  apply Hk. apply elem_of_dom. exists v'. by apply elem_of_map_to_list.
Qed.

Lemma add_qualtrics_fields_unprefixed resp m k :
  startswith k qualtrics_ = false →
  add_qualtrics_fields resp m !! k = m !! k.
Proof.
  intros Hk. apply add_qualtrics_fields_other.
  intros k' _. by apply startswith_false_ne.
Qed.

Lemma merge_step_merged qualtrics_data st log :
  merged (merge_step qualtrics_data st log) =
  merged st ++ [merged_log qualtrics_data log].
Proof.
  unfold merge_step, merged_log, foreign_key.
  destruct (is_empty _); [done|]. by destruct (qualtrics_data !! _).
Qed.

Lemma merged_foldl qualtrics_data st logs :
  merged (foldl (merge_step qualtrics_data) st logs) =
  merged st ++ (merged_log qualtrics_data <$> logs).
Proof.
  revert st. induction logs as [|log logs IH]; intros st; simpl.
  - by rewrite app_nil_r.
  - by rewrite IH, merge_step_merged, <- app_assoc.
Qed.

Lemma merged_merge_data qualtrics_data logs :
  merged (merge_data qualtrics_data logs) = merged_log qualtrics_data <$> logs.
Proof. unfold merge_data. by rewrite merged_foldl. Qed.

Lemma merged_lookup qualtrics_data logs i log m :
  logs !! i = Some log →
  merged (merge_data qualtrics_data logs) !! i = Some m →
  m = merged_log qualtrics_data log.
Proof.
  intros Hlog. rewrite merged_merge_data, list_lookup_fmap, Hlog. simpl.
  congruence.
Qed.

(** The three ways a pass of the loop can go. *)
Lemma merged_log_cases qualtrics_data log :
  (foreign_key log = [] ∧
   merged_log qualtrics_data log =
     <[_match_status := py "no_qualtrics_id"]> log) ∨
  (foreign_key log ≠ [] ∧ ∃ resp,
     qualtrics_data !! foreign_key log = Some resp ∧
     merged_log qualtrics_data log =
       <[_match_status := py "matched"]> (add_qualtrics_fields resp log)) ∨
  (foreign_key log ≠ [] ∧ qualtrics_data !! foreign_key log = None ∧
   merged_log qualtrics_data log =
     <[_match_status := py "qualtrics_id_not_found"]> log).
Proof.
  unfold merged_log. destruct (is_empty (foreign_key log)) eqn:He.
  - apply is_empty_true in He. by left.
  - apply is_empty_false in He. right.
    destruct (qualtrics_data !! foreign_key log) as [resp|]; eauto.
Qed.

(** Log fields outside the two reserved name spaces pass through. *)
Lemma merged_log_preserves qualtrics_data log k v :
  log !! k = Some v → startswith k qualtrics_ = false → k ≠ _match_status →
  merged_log qualtrics_data log !! k = Some v.
Proof.
  intros Hk Hpre Hst.
  destruct (merged_log_cases qualtrics_data log)
    as [[_ ->]|[(_ & resp & _ & ->)|(_ & _ & ->)]];
    rewrite lookup_insert_ne by done; [done| |done].
  by rewrite add_qualtrics_fields_unprefixed.
Qed.
End merge.

Section merge_claims.
Import Merge.
Implicit Types (qualtrics_data : gmap pystr (gmap pystr pystr)).
Implicit Types (log m resp : gmap pystr pystr).


Lemma prefixed_ne_match_status (k : pystr) : qualtrics_ ++ k ≠ _match_status.
Proof. intros Heq. by apply (startswith_false_ne _match_status qualtrics_ k). Qed.

(** C2 (amended).  Every merged record carries in [_match_status] exactly
    one of the three tags [matched], [no_qualtrics_id],
    [qualtrics_id_not_found], and the tag follows the foreign key:
    [no_qualtrics_id] iff the trimmed [qualtricsResponseId] is empty or
    absent, [matched] iff it is non-empty and a key of the survey index,
    [qualtrics_id_not_found] iff it is non-empty and not a key. *)
Theorem merge_data_match_status qualtrics_data
    (logs : list (gmap pystr pystr)) (i : nat) log m :
  logs !! i = Some log →
  merged (merge_data qualtrics_data logs) !! i = Some m →
  ∃ tag, m !! _match_status = Some tag ∧
    (tag = py "matched" ∨ tag = py "no_qualtrics_id"
     ∨ tag = py "qualtrics_id_not_found") ∧
    (tag = py "no_qualtrics_id" ↔ foreign_key log = []) ∧
    (tag = py "matched" ↔
       foreign_key log ≠ [] ∧ foreign_key log ∈ dom qualtrics_data) ∧
    (tag = py "qualtrics_id_not_found" ↔
       foreign_key log ≠ [] ∧ foreign_key log ∉ dom qualtrics_data).
Proof.
  intros Hlog Hm. rewrite (merged_lookup _ _ _ _ _ Hlog Hm).
  destruct (merged_log_cases qualtrics_data log)
    as [[Hfk ->]|[(Hfk & resp & Hresp & ->)|(Hfk & Hresp & ->)]];
    rewrite lookup_insert_eq; eexists; (split; [done|]).
  - split_and!; [auto|done|..]; (split; [discriminate|tauto]).
  - assert (foreign_key log ∈ dom qualtrics_data)
      by (apply elem_of_dom; eauto).
    split_and!; [auto|..]; split; try done; try discriminate; tauto.
  - assert (foreign_key log ∉ dom qualtrics_data)
      by by apply not_elem_of_dom.
    split_and!; [auto|..]; split; try done; try discriminate; tauto.
Qed.

(** C3.  A merged record tagged [matched] holds every field of the survey
    response of its foreign key, under the field's name prefixed with
    [qualtrics_] and with the field's value as it is. *)
Theorem merge_data_matched_fields qualtrics_data
    (logs : list (gmap pystr pystr)) (i : nat) log m :
  logs !! i = Some log →
  merged (merge_data qualtrics_data logs) !! i = Some m →
  m !! _match_status = Some (py "matched") →
  ∃ resp, qualtrics_data !! foreign_key log = Some resp ∧
    ∀ k v, resp !! k = Some v → m !! (qualtrics_ ++ k) = Some v.
Proof.
  intros Hlog Hm. rewrite (merged_lookup _ _ _ _ _ Hlog Hm).
  destruct (merged_log_cases qualtrics_data log)
    as [[Hfk ->]|[(Hfk & resp & Hresp & ->)|(Hfk & Hresp & ->)]];
    rewrite lookup_insert_eq; [discriminate| |discriminate].
  intros _. exists resp. split; [done|]. intros k v Hk.
  rewrite lookup_insert_ne by (apply not_eq_sym, prefixed_ne_match_status).
  by apply add_qualtrics_fields_here.
Qed.

(** C4 (amended).  For a log record none of whose field names starts with
    [qualtrics_], matched to a survey response: the merged record is the
    log record with the prefixed survey fields added and then the status
    tag set; the prefixed names are not field names of the log record; and
    adding them leaves every field of the log record as it was. *)
Theorem merge_data_no_collision qualtrics_data
    (logs : list (gmap pystr pystr)) (i : nat) log m resp :
  logs !! i = Some log →
  merged (merge_data qualtrics_data logs) !! i = Some m →
  foreign_key log ≠ [] →
  qualtrics_data !! foreign_key log = Some resp →
  (∀ k, k ∈ dom log → startswith k qualtrics_ = false) →
  m = <[_match_status := py "matched"]> (add_qualtrics_fields resp log) ∧
  (∀ k, k ∈ dom resp → qualtrics_ ++ k ∉ dom log) ∧
  (∀ k v, log !! k = Some v → add_qualtrics_fields resp log !! k = Some v).
Proof.
  intros Hlog Hm Hfk Hresp Hfree. split_and!.
  - rewrite (merged_lookup _ _ _ _ _ Hlog Hm).
    destruct (merged_log_cases qualtrics_data log)
      as [[? _]|[(_ & resp' & Hresp' & ->)|(_ & ? & _)]]; congruence.
  - intros k _ Hin. apply Hfree in Hin. by rewrite startswith_app in Hin.
  - intros k v Hk. rewrite add_qualtrics_fields_unprefixed; [done|].
    apply Hfree, elem_of_dom. eauto.
Qed.
End merge_claims.

Lemma merge_data_match_status_witness :
  ∃ tag, merged_log Ex.survey Ex.log !! _match_status = Some tag ∧
    (tag = py "matched" ∨ tag = py "no_qualtrics_id"
     ∨ tag = py "qualtrics_id_not_found") ∧
    (tag = py "no_qualtrics_id" ↔ foreign_key Ex.log = []) ∧
    (tag = py "matched" ↔
       foreign_key Ex.log ≠ [] ∧ foreign_key Ex.log ∈ dom Ex.survey) ∧
    (tag = py "qualtrics_id_not_found" ↔
       foreign_key Ex.log ≠ [] ∧ foreign_key Ex.log ∉ dom Ex.survey).
Proof.
  apply (merge_data_match_status Ex.survey [Ex.log] 0 Ex.log
           (merged_log Ex.survey Ex.log)).
  - reflexivity.
  - vm_compute. reflexivity.
Defined.

Lemma merge_data_matched_fields_witness :
  ∃ resp, Ex.survey !! foreign_key Ex.log = Some resp ∧
    ∀ k v, resp !! k = Some v →
           merged_log Ex.survey Ex.log !! (qualtrics_ ++ k) = Some v.
Proof.
  apply (merge_data_matched_fields Ex.survey [Ex.log] 0 Ex.log
           (merged_log Ex.survey Ex.log)).
  - reflexivity.
  - vm_compute. reflexivity.
  - vm_compute. reflexivity.
Defined.

Lemma merge_data_no_collision_witness :
  merged_log Ex.survey Ex.log =
    <[_match_status := py "matched"]>
      (Merge.add_qualtrics_fields Ex.response Ex.log) ∧
  (∀ k, k ∈ dom Ex.response → qualtrics_ ++ k ∉ dom Ex.log) ∧
  (∀ k v, Ex.log !! k = Some v →
          Merge.add_qualtrics_fields Ex.response Ex.log !! k = Some v).
Proof.
  apply (merge_data_no_collision Ex.survey [Ex.log] 0 Ex.log
           (merged_log Ex.survey Ex.log) Ex.response).
  - reflexivity.
  - vm_compute. reflexivity.
  - vm_compute. discriminate.
  - vm_compute. reflexivity.
  - intros k Hk. unfold Ex.log in Hk.
    rewrite !dom_insert_L, dom_empty_L in Hk.
    apply elem_of_union in Hk as [Hk|Hk].
    + apply elem_of_singleton in Hk as ->. reflexivity.
    + apply elem_of_union in Hk as [Hk|Hk].
      * apply elem_of_singleton in Hk as ->. reflexivity.
      * by apply not_elem_of_empty in Hk.
Defined.

(** C2, as stated, names the tags [no_identifier] and
    [identifier_not_found]; the code writes [no_qualtrics_id] and
    [qualtrics_id_not_found].  A log record without identifier, merged
    against the empty index, carries none of the three tags of the claim. *)
Lemma merge_data_tag_names_counterexample :
  ¬ (∀ (qualtrics_data : gmap pystr (gmap pystr pystr))
       (logs : list (gmap pystr pystr)) (i : nat) (log m : gmap pystr pystr),
       logs !! i = Some log →
       Merge.merged (Merge.merge_data qualtrics_data logs) !! i = Some m →
       ∃ tag, m !! _match_status = Some tag ∧
         (tag = py "matched" ∨ tag = py "no_identifier"
          ∨ tag = py "identifier_not_found") ∧
         (tag = py "no_identifier" ↔ foreign_key log = []) ∧
         (tag = py "matched" ↔
            foreign_key log ≠ [] ∧ foreign_key log ∈ dom qualtrics_data) ∧
         (tag = py "identifier_not_found" ↔
            foreign_key log ≠ [] ∧ foreign_key log ∉ dom qualtrics_data)).
Proof.
  intros Hclaim.
  destruct (Hclaim ∅ [∅] 0 ∅ (<[_match_status := py "no_qualtrics_id"]> ∅))
    as (tag & Htag & Hcases & _).
  - reflexivity.
  - vm_compute. reflexivity.
  - rewrite lookup_insert_eq in Htag. injection Htag as <-.
    destruct Hcases as [H|[H|H]]; discriminate H.
Qed.

(** C4, as stated, fails for a log record that has a column in the survey's
    name space: with the log field [qualtrics_Q1 = old] and the survey field
    [Q1 = yes] of the matched response, adding the survey fields replaces
    [old] by [yes]. *)
Lemma merge_data_collision_counterexample :
  ¬ (∀ (qualtrics_data : gmap pystr (gmap pystr pystr))
       (logs : list (gmap pystr pystr)) (i : nat)
       (log m resp : gmap pystr pystr),
       logs !! i = Some log →
       Merge.merged (Merge.merge_data qualtrics_data logs) !! i = Some m →
       foreign_key log ≠ [] →
       qualtrics_data !! foreign_key log = Some resp →
       m = <[_match_status := py "matched"]>
             (Merge.add_qualtrics_fields resp log) ∧
       (∀ k, k ∈ dom resp → qualtrics_ ++ k ∉ dom log) ∧
       (∀ k v, log !! k = Some v →
               Merge.add_qualtrics_fields resp log !! k = Some v)).
Proof.
  intros Hclaim.
  destruct (Hclaim Ex.survey [Ex.clashing_log] 0 Ex.clashing_log
              (merged_log Ex.survey Ex.clashing_log) Ex.response)
    as (_ & _ & Hkeep).
  - reflexivity.
  - vm_compute. reflexivity.
  - vm_compute. discriminate.
  - vm_compute. reflexivity.
  - specialize (Hkeep (py "qualtrics_Q1") (py "old") eq_refl).
    vm_compute in Hkeep. discriminate Hkeep.
Qed.

(** ** [merge_data] on the store *)

Section store.
Import Store.
Implicit Types (σ : store) (qualtrics_data : gmap pystr ref).
Implicit Types (o : gmap pystr pystr) (st : state) (logs : list ref).

Lemma dict_get_run σ d key dflt o :
  σ !! d = Some o → dict_get d key dflt σ = Some (default dflt (o !! key), σ).
Proof. intros Hd. unfold dict_get. by rewrite Hd. Qed.

Lemma dict_copy_run σ d o :
  σ !! d = Some o → dict_copy d σ = Some (length σ, σ ++ [o]).
Proof. intros Hd. unfold dict_copy. by rewrite Hd. Qed.

Lemma dict_items_run σ d o :
  σ !! d = Some o → dict_items d σ = Some (map_to_list o, σ).
Proof. intros Hd. unfold dict_items. by rewrite Hd. Qed.

(** An assignment into the newest object. *)
Lemma dict_setitem_last σ o key value :
  dict_setitem (length σ) key value (σ ++ [o]) =
  Some ((), σ ++ [<[key := value]> o]).
Proof.
  unfold dict_setitem.
  rewrite lookup_app_r, Nat.sub_diag by done. simpl.
  by rewrite insert_app_r_alt, Nat.sub_diag by done.
Qed.

Lemma bind_run {A B} (m : M A) (f : A → M B) σ a σ' :
  m σ = Some (a, σ') → (m ≫= f) σ = f a σ'.
Proof. intros Hm. unfold mbind, M_bind. by rewrite Hm. Qed.

Lemma for_each_setitem_last σ o items :
  for_each items
    (λ kv, dict_setitem (length σ) (qualtrics_ ++ kv.1) kv.2) (σ ++ [o]) =
  Some ((), σ ++ [Merge.add_items items o]).
Proof.
  revert o. induction items as [|kv items IH]; intros o; [done|].
  simpl. erewrite bind_run by apply dict_setitem_last. apply IH.
Qed.

Lemma deref_index_Some σ qualtrics_data rid r o :
  qualtrics_data !! rid = Some r → σ !! r = Some o →
  deref_index σ qualtrics_data !! rid = Some o.
Proof. intros Hr Ho. unfold deref_index. by rewrite lookup_omap, Hr. Qed.

Lemma deref_index_None σ qualtrics_data rid :
  qualtrics_data !! rid = None → deref_index σ qualtrics_data !! rid = None.
Proof. intros Hr. unfold deref_index. by rewrite lookup_omap, Hr. Qed.

Lemma deref_index_app σ σ' qualtrics_data :
  (∀ rid r, qualtrics_data !! rid = Some r → is_Some (σ !! r)) →
  deref_index (σ ++ σ') qualtrics_data = deref_index σ qualtrics_data.
Proof.
  intros Hvalid. apply map_eq. intros rid. unfold deref_index.
  rewrite !lookup_omap. destruct (qualtrics_data !! rid) as [r|] eqn:Hr; [|done].
  simpl. destruct (Hvalid _ _ Hr) as [o Ho].
  by rewrite (lookup_app_l_Some _ _ _ _ Ho).
Qed.

(** One pass of the loop allocates one object, the record the value-level
    merge builds, and writes to no other. *)
Lemma merge_step_run σ qualtrics_data st vst log o :
  σ !! log = Some o →
  (∀ rid r, qualtrics_data !! rid = Some r → is_Some (σ !! r)) →
  counters_agree st vst →
  ∃ st', merge_step qualtrics_data st log σ =
           Some (st', σ ++ [merged_log (deref_index σ qualtrics_data) o]) ∧
    merged st' = merged st ++ [length σ] ∧
    counters_agree st'
      (Merge.merge_step (deref_index σ qualtrics_data) vst o).
Proof.
  intros Hlog Hvalid (Hm & Hu & Hids).
  unfold merge_step, Merge.merge_step, merged_log, foreign_key.
  erewrite bind_run by by apply dict_get_run.
  destruct (is_empty _).
  { erewrite bind_run by by apply dict_copy_run.
    erewrite bind_run by apply dict_setitem_last.
    eexists. split_and!; [done..|]. split_and!; simpl; congruence. }
  destruct (qualtrics_data !! _) as [r|] eqn:Hr.
  - destruct (Hvalid _ _ Hr) as [resp Hresp].
    rewrite (deref_index_Some _ _ _ _ _ Hr Hresp).
    erewrite bind_run by by apply dict_copy_run.
    erewrite bind_run
      by (apply dict_items_run; by apply lookup_app_l_Some).
    erewrite bind_run by apply for_each_setitem_last.
    erewrite bind_run by apply dict_setitem_last.
    eexists. split_and!; [done..|]. split_and!; simpl; congruence.
  - rewrite (deref_index_None _ _ _ Hr).
    erewrite bind_run by by apply dict_copy_run.
    erewrite bind_run by apply dict_setitem_last.
    eexists. split_and!; [done..|]. split_and!; simpl; congruence.
Qed.

(** The whole loop extends the store by the merged records, in order. *)
Lemma merge_loop_run σ0 qualtrics_data logs os :
  (∀ rid r, qualtrics_data !! rid = Some r → is_Some (σ0 !! r)) →
  Forall2 (λ log o, σ0 !! log = Some o) logs os →
  ∀ σ1 st vst, counters_agree st vst →
  ∃ st',
    merge_loop qualtrics_data st logs (σ0 ++ σ1) =
      Some (st', σ0 ++ σ1 ++
              (merged_log (deref_index σ0 qualtrics_data) <$> os)) ∧
    merged st' = merged st ++ seq (length (σ0 ++ σ1)) (length logs) ∧
    counters_agree st'
      (foldl (Merge.merge_step (deref_index σ0 qualtrics_data)) vst os).
Proof.
  intros Hvalid Hlogs.
  induction Hlogs as [|log o logs os Ho _ IH]; intros σ1 st vst Hst.
  - exists st. simpl. by rewrite !app_nil_r.
  - simpl.
    destruct (merge_step_run (σ0 ++ σ1) qualtrics_data st vst log o)
      as (st1 & Hstep & Hmerged1 & Hst1); [| |done|].
    { by apply lookup_app_l_Some. }
    { intros rid r Hr. destruct (Hvalid _ _ Hr) as [o' Ho'].
      exists o'. by apply lookup_app_l_Some. }
    rewrite deref_index_app in Hstep, Hst1 by done.
    erewrite bind_run by apply Hstep.
    rewrite <- app_assoc.
    destruct (IH (σ1 ++ [merged_log (deref_index σ0 qualtrics_data) o])
                st1 _ Hst1) as (st' & Hrun & Hmerged & Hst').
    exists st'. split_and!; [|  |done].
    + rewrite Hrun. by rewrite <- !app_assoc.
    + rewrite Hmerged, Hmerged1, <- app_assoc. simpl.
      do 3 f_equal. rewrite !length_app. simpl. lia.
Qed.

Lemma valid_inputs_objects σ qualtrics_data logs :
  valid_inputs σ qualtrics_data logs →
  ∃ os, Forall2 (λ log o, σ !! log = Some o) logs os.
Proof.
  intros [_ Hlogs]. induction Hlogs as [|log logs [o Ho] _ [os IH]].
  - by exists [].
  - exists (o :: os). by constructor.
Qed.

(** The store-level merge computes the value-level merge: it returns, the
    store grows by exactly the records of [Merge.merge_data] on the
    dictionaries the inputs refer to, [merged] lists the references to
    these new objects, and the counters agree. *)
Lemma merge_data_run σ qualtrics_data logs os :
  (∀ rid r, qualtrics_data !! rid = Some r → is_Some (σ !! r)) →
  Forall2 (λ log o, σ !! log = Some o) logs os →
  ∃ st,
    merge_data qualtrics_data logs σ =
      Some (st, σ ++ Merge.merged
                       (Merge.merge_data (deref_index σ qualtrics_data) os)) ∧
    merged st = seq (length σ) (length logs) ∧
    counters_agree st (Merge.merge_data (deref_index σ qualtrics_data) os).
Proof.
  intros Hvalid Hlogs.
  destruct (merge_loop_run σ qualtrics_data logs os Hvalid Hlogs
              [] init Merge.init) as (st & Hrun & Hmerged & Hst); [done|].
  rewrite !app_nil_r in Hrun, Hmerged. simpl in *.
  exists st. by rewrite merged_merge_data.
Qed.

(** C10.  The merge writes to no object it was given and keeps the log's
    own content.  Run on a store in which the survey index and the log
    list refer to dictionaries, [merge_data] returns; every object of the
    store before the call (so every survey response and every log record)
    is unchanged after it; each merged record is a new object; and every
    field of a log record whose name neither starts with [qualtrics_] nor
    is [_match_status] is in the merged record at the same position with
    the same value, whichever branch was taken. *)
Theorem merge_data_frame σ qualtrics_data logs :
  valid_inputs σ qualtrics_data logs →
  ∃ st σ', merge_data qualtrics_data logs σ = Some (st, σ') ∧
    (∀ r o, σ !! r = Some o → σ' !! r = Some o) ∧
    Forall2 (λ log new,
               length σ ≤ new ∧
               ∃ o m, σ !! log = Some o ∧ σ' !! new = Some m ∧
                 ∀ k v, o !! k = Some v →
                        startswith k qualtrics_ = false →
                        k ≠ _match_status → m !! k = Some v)
            logs (merged st).
Proof.
  intros Hvalid.
  destruct (valid_inputs_objects _ _ _ Hvalid) as [os Hos].
  destruct (merge_data_run σ qualtrics_data logs os (proj1 Hvalid) Hos)
    as (st & Hrun & Hmerged & _).
  rewrite merged_merge_data in Hrun.
  eexists st, _. split_and!; [exact Hrun|..].
  - intros r o Ho. by apply lookup_app_l_Some.
  - rewrite Hmerged. apply Forall2_same_length_lookup_2.
    { by rewrite length_seq. }
    intros i log new Hlog [-> _]%lookup_seq.
    destruct (Forall2_lookup_l _ _ _ _ _ Hos Hlog) as (o & Ho & Hlogo).
    split; [lia|]. exists o, (merged_log (deref_index σ qualtrics_data) o).
    split_and!; [done| |].
    + rewrite lookup_app_r by lia.
      replace (length σ + i - length σ) with i by lia.
      by rewrite list_lookup_fmap, Ho.
    + intros k v. apply merged_log_preserves.
Qed.
End store.

Lemma merge_data_frame_witness :
  ∃ st σ', Store.merge_data Ex.survey_refs Ex.log_refs Ex.objects
             = Some (st, σ') ∧
    (∀ r o, Ex.objects !! r = Some o → σ' !! r = Some o) ∧
    Forall2 (λ log new,
               length Ex.objects ≤ new ∧
               ∃ o m, Ex.objects !! log = Some o ∧ σ' !! new = Some m ∧
                 ∀ k v, o !! k = Some v →
                        startswith k qualtrics_ = false →
                        k ≠ _match_status → m !! k = Some v)
            Ex.log_refs (Store.merged st).
Proof.
  apply (merge_data_frame Ex.objects Ex.survey_refs Ex.log_refs).
  split.
  - intros rid r Hr. unfold Ex.survey_refs in Hr.
    apply lookup_insert_Some in Hr as [[_ <-]|[_ Hr]].
    + exists Ex.response. reflexivity.
    + rewrite lookup_empty in Hr. discriminate Hr.
  - repeat constructor; exists Ex.log; reflexivity.
Defined.

(** ** The Merge Engine: column order and [write_merged_csv] *)

Section writer.
Import Writer.
Implicit Types (U seen : gset pystr) (k : pystr).
Implicit Types (merged_data : list (gmap pystr pystr)).

Lemma elem_of_all_keys_foldl merged_data U k :
  k ∈ foldl (λ all_keys record, all_keys ∪ dom record) U merged_data ↔
  k ∈ U ∨ ∃ record, record ∈ merged_data ∧ k ∈ dom record.
Proof.
  revert U. induction merged_data as [|r merged_data IH]; intros U; simpl.
  - split; [auto|]. intros [?|(r & []%elem_of_nil & _)]. done.
  - rewrite IH, elem_of_union. split.
    + intros [[?|?]|(r' & ? & ?)]; [auto| |].
      * right. exists r. split; [by left|done].
      * right. exists r'. split; [by right|done].
    + intros [?|(r' & [->|?]%elem_of_cons & ?)]; [auto|auto|eauto].
Qed.

Lemma elem_of_all_keys merged_data k :
  k ∈ all_keys merged_data ↔
  ∃ record, record ∈ merged_data ∧ k ∈ dom record.
Proof.
  unfold all_keys. rewrite elem_of_all_keys_foldl.
  split; [|auto]. by intros [[]%not_elem_of_empty|?].
Qed.

(** The loop over the priority list keeps the keys of the union, in the
    list's order, and records them in [seen]. *)
Lemma standard_loop U (l ordered : list pystr) seen :
  foldl (standard_step U) (ordered, seen) l =
  (ordered ++ filter (λ k, k ∈ U) l,
   list_to_set (reverse (filter (λ k, k ∈ U) l)) ∪ seen).
Proof.
  revert ordered seen.
  induction l as [|key l IH]; intros ordered seen; simpl.
  - by rewrite app_nil_r, union_empty_l_L.
  - rewrite filter_cons. case_decide.
    + rewrite IH, <- app_assoc, reverse_cons, list_to_set_snoc_L.
      by rewrite <- union_assoc_L.
    + apply IH.
Qed.

Lemma standard_keys_unprefixed k :
  k ∈ standard_log_keys → startswith k qualtrics_ = false.
Proof.
  unfold standard_log_keys. rewrite !elem_of_cons, elem_of_nil.
  intros H. repeat (destruct H as [->|H]; [reflexivity|]). done.
Qed.

Lemma standard_keys_no_underscore k :
  k ∈ standard_log_keys → startswith k underscore = false.
Proof.
  unfold standard_log_keys. rewrite !elem_of_cons, elem_of_nil.
  intros H. repeat (destruct H as [->|H]; [reflexivity|]). done.
Qed.

Lemma prefixed_no_underscore k :
  startswith k qualtrics_ = true → startswith k underscore = false.
Proof. intros [t ->]%startswith_spec. reflexivity. Qed.

(** [ordered_keys] with the loop over the priority list carried out. *)
Lemma ordered_keys_unfold iter U :
  let standard := filter (λ k, k ∈ U) standard_log_keys in
  let seen : gset pystr := list_to_set (reverse standard) ∪ ∅ in
  let qualtrics :=
    sorted (filter (λ k, startswith k qualtrics_ ∧ k ∉ seen) (iter U)) in
  let other :=
    sorted (filter (λ k, (k ∉ seen ∪ list_to_set qualtrics)
                         ∧ ¬ (startswith k underscore)) (iter U)) in
  let metadata :=
    sorted (filter (λ k, Is_true (startswith k underscore)) (iter U)) in
  ordered_keys iter U = standard ++ qualtrics ++ other ++ metadata.
Proof.
  unfold ordered_keys. rewrite standard_loop. simpl.
  by rewrite <- !app_assoc.
Qed.

Lemma sorted_filter_perm (P : pystr → Prop) `{!∀ k, Decision (P k)}
    (l1 l2 : list pystr) :
  l1 ≡ₚ l2 → sorted (filter P l1) = sorted (filter P l2).
Proof. intros Hperm. apply sorted_perm_eq. by rewrite Hperm. Qed.

(** The column order does not depend on the order in which the set of
    keys is iterated. *)
Lemma ordered_keys_iter iter iter' U :
  iter U ≡ₚ iter' U → ordered_keys iter U = ordered_keys iter' U.
Proof.
  intros Hperm. rewrite !ordered_keys_unfold. cbv zeta.
  by rewrite !(sorted_filter_perm _ (iter U) (iter' U) Hperm).
Qed.
(** One sorted stage: sorted, without repetition, and holding exactly the
    keys of the union that pass the stage's test. *)
Lemma stage_spec (P : pystr → Prop) `{!∀ k, Decision (P k)}
    (iter : gset pystr → list pystr) U :
  iter U ≡ₚ elements U →
  StronglySorted str_le (sorted (filter P (iter U))) ∧
  NoDup (sorted (filter P (iter U))) ∧
  ∀ k, k ∈ sorted (filter P (iter U)) ↔ P k ∧ k ∈ U.
Proof.
  intros Hperm. split_and!.
  - apply sorted_StronglySorted.
  - rewrite sorted_Permutation, Hperm.
    apply NoDup_filter, NoDup_elements.
  - intros k.
    by rewrite elem_of_sorted, list_elem_of_filter, Hperm, elem_of_elements.
Qed.

Lemma elem_of_seen U k :
  k ∈ (list_to_set (reverse (filter (λ k, k ∈ U) standard_log_keys)) ∪ ∅
       : gset pystr) ↔
  k ∈ filter (λ k, k ∈ U) standard_log_keys.
Proof.
  rewrite elem_of_union, elem_of_list_to_set, elem_of_reverse.
  split; [|auto]. by intros [?|[]%not_elem_of_empty].
Qed.

(** C5.  The column order is built in four stages from the union of the
    keys of all merged records: the priority list restricted to the keys
    of the union, in the list's order; then the keys starting with
    [qualtrics_], sorted; then the keys not yet placed and not starting
    with [_], sorted; then the keys starting with [_], sorted.  Each
    sorted stage has no repetition, so union and stages fix the order,
    and it is the same for every order in which the set of keys is
    iterated. *)
Theorem ordered_keys_stages (iter : gset pystr → list pystr) merged_data :
  (∀ s, iter s ≡ₚ elements s) →
  ∃ standard qualtrics other metadata,
    ordered_keys iter (all_keys merged_data)
      = standard ++ qualtrics ++ other ++ metadata ∧
    (∀ k, k ∈ all_keys merged_data ↔
          ∃ record, record ∈ merged_data ∧ k ∈ dom record) ∧
    standard = filter (λ k, k ∈ all_keys merged_data) standard_log_keys ∧
    (StronglySorted str_le qualtrics ∧ NoDup qualtrics ∧
     ∀ k, k ∈ qualtrics ↔
          k ∈ all_keys merged_data ∧ startswith k qualtrics_ = true) ∧
    (StronglySorted str_le other ∧ NoDup other ∧
     ∀ k, k ∈ other ↔
          k ∈ all_keys merged_data ∧ (k ∉ standard) ∧ (k ∉ qualtrics) ∧
          startswith k underscore = false) ∧
    (StronglySorted str_le metadata ∧ NoDup metadata ∧
     ∀ k, k ∈ metadata ↔
          k ∈ all_keys merged_data ∧ startswith k underscore = true) ∧
    (∀ iter', (∀ s, iter' s ≡ₚ elements s) →
       ordered_keys iter' (all_keys merged_data)
         = ordered_keys iter (all_keys merged_data)).
Proof.
  intros Hiter. set (U := all_keys merged_data).
  pose proof (ordered_keys_unfold iter U) as Heq. cbv zeta in Heq.
  do 4 eexists. split; [exact Heq|].
  split; [apply elem_of_all_keys|]. split; [done|].
  split_and!.
  - by apply stage_spec.
  - by apply stage_spec.
  - intros k. rewrite (proj2 (proj2 (stage_spec _ iter U (Hiter U)))).
    rewrite elem_of_seen, Is_true_true. split.
    + intros [[? _] ?]. done.
    + intros [? Hpre]. split_and!; [done| |done].
      intros [_ Hstd]%list_elem_of_filter.
      apply standard_keys_unprefixed in Hstd. congruence.
  - by apply stage_spec.
  - by apply stage_spec.
  - intros k. rewrite (proj2 (proj2 (stage_spec _ iter U (Hiter U)))).
    rewrite not_elem_of_union, elem_of_seen, elem_of_list_to_set,
      Is_true_false. tauto.
  - by apply stage_spec.
  - by apply stage_spec.
  - intros k. rewrite (proj2 (proj2 (stage_spec _ iter U (Hiter U)))).
    rewrite Is_true_true. tauto.
  - intros iter' Hiter'. apply ordered_keys_iter.
    by rewrite Hiter, Hiter'.
Qed.
(** Every key of the union has a column. *)
Lemma elem_of_stage (P : pystr → Prop) `{!∀ k, Decision (P k)}
    (iter : gset pystr → list pystr) U k :
  iter U ≡ₚ elements U →
  k ∈ sorted (filter P (iter U)) ↔ P k ∧ k ∈ U.
Proof. intros Hperm. by apply stage_spec. Qed.

Lemma ordered_keys_cover (iter : gset pystr → list pystr) U k :
  iter U ≡ₚ elements U → k ∈ U → k ∈ ordered_keys iter U.
Proof.
  intros Hperm Hk. rewrite ordered_keys_unfold. cbv zeta.
  rewrite !elem_of_app.
  destruct (startswith k underscore) eqn:Hmeta.
  { do 3 right. apply elem_of_stage; [done|].
    split; [by apply Is_true_true|done]. }
  destruct (decide (k ∈ filter (λ k, k ∈ U) standard_log_keys))
    as [|Hstd]; [by left|].
  destruct (startswith k qualtrics_) eqn:Hpre.
  { right; left. apply elem_of_stage; [done|]. split; [|done].
    split; [by apply Is_true_true|]. by rewrite elem_of_seen. }
  do 2 right; left. apply elem_of_stage; [done|]. split; [|done]. split.
  - rewrite not_elem_of_union, elem_of_seen, elem_of_list_to_set.
    split; [done|]. intros Hin. apply elem_of_stage in Hin; [|done].
    destruct Hin as [[Hp _] _]. apply Is_true_true in Hp. congruence.
  - by apply Is_true_false.
Qed.

Lemma writerows_covered (fieldnames : list pystr) merged_data :
  Forall (λ record, dom record ⊆ list_to_set fieldnames) merged_data →
  writerows fieldnames merged_data =
  Return ((λ record, (λ key, default [] (record !! key)) <$> fieldnames)
            <$> merged_data).
Proof.
  induction 1 as [|record merged_data Hrecord _ IH]; [done|].
  simpl. unfold dict_to_list. rewrite decide_True by done. by rewrite IH.
Qed.

End writer.

Lemma ordered_keys_stages_witness :
  ∃ standard qualtrics other metadata,
    Writer.ordered_keys elements (Writer.all_keys [merged_log Ex.survey Ex.log])
      = standard ++ qualtrics ++ other ++ metadata ∧
    (∀ k, k ∈ Writer.all_keys [merged_log Ex.survey Ex.log] ↔
          ∃ record, record ∈ [merged_log Ex.survey Ex.log] ∧ k ∈ dom record) ∧
    standard = filter (λ k, k ∈ Writer.all_keys [merged_log Ex.survey Ex.log])
                      Writer.standard_log_keys ∧
    (StronglySorted str_le qualtrics ∧ NoDup qualtrics ∧
     ∀ k, k ∈ qualtrics ↔
          k ∈ Writer.all_keys [merged_log Ex.survey Ex.log] ∧
          startswith k qualtrics_ = true) ∧
    (StronglySorted str_le other ∧ NoDup other ∧
     ∀ k, k ∈ other ↔
          k ∈ Writer.all_keys [merged_log Ex.survey Ex.log] ∧
          (k ∉ standard) ∧ (k ∉ qualtrics) ∧
          startswith k underscore = false) ∧
    (StronglySorted str_le metadata ∧ NoDup metadata ∧
     ∀ k, k ∈ metadata ↔
          k ∈ Writer.all_keys [merged_log Ex.survey Ex.log] ∧
          startswith k underscore = true) ∧
    (∀ iter', (∀ s, iter' s ≡ₚ elements s) →
       Writer.ordered_keys iter' (Writer.all_keys [merged_log Ex.survey Ex.log])
         = Writer.ordered_keys elements
             (Writer.all_keys [merged_log Ex.survey Ex.log])).
Proof.
  apply (ordered_keys_stages elements [merged_log Ex.survey Ex.log]).
  intros s. reflexivity.
Defined.

(** * Further properties of the code *)

(** ** [strip] *)

Lemma lstrip_length (s : pystr) : length (lstrip s) ≤ length s.
Proof.
  induction s as [|c s IH]; simpl; [done|].
  destruct (isspace c); simpl; lia.
Qed.

Lemma lstrip_fixed (s : pystr) :
  lstrip s = s ↔ s = [] ∨ ∃ c t, s = c :: t ∧ isspace c = false.
Proof.
  destruct s as [|c s]; simpl.
  - split; auto.
  - destruct (isspace c) eqn:Hc.
    + split.
      * intros Heq. pose proof (lstrip_length s) as Hlen.
        rewrite Heq in Hlen. simpl in Hlen. lia.
      * intros [?|(c' & t & [= <- <-] & ?)]; congruence.
    + split; [|done]. intros _. right. by exists c, s.
Qed.

Lemma lstrip_idem (s : pystr) : lstrip (lstrip s) = lstrip s.
Proof.
  induction s as [|c s IH]; simpl; [done|].
  destruct (isspace c) eqn:Hc; [done|]. simpl. by rewrite Hc.
Qed.

(** What [lstrip] removes is a run of whitespace. *)
Lemma lstrip_split (s : pystr) :
  ∃ ws, s = ws ++ lstrip s ∧ Forall (λ c, isspace c = true) ws.
Proof.
  induction s as [|c s (ws & Hs & Hws)]; simpl.
  - by exists [].
  - destruct (isspace c) eqn:Hc.
    + exists (c :: ws). split; [simpl; congruence|by constructor].
    + by exists [].
Qed.

Lemma rstrip_split (s : pystr) :
  ∃ ws, s = rstrip s ++ ws ∧ Forall (λ c, isspace c = true) ws.
Proof.
  destruct (lstrip_split (reverse s)) as (ws & Hs & Hws).
  exists (reverse ws). split.
  - unfold rstrip. rewrite <- reverse_app, <- Hs. by rewrite reverse_involutive.
  - by apply Forall_reverse.
Qed.

Lemma rstrip_idem (s : pystr) : rstrip (rstrip s) = rstrip s.
Proof. unfold rstrip. by rewrite reverse_involutive, lstrip_idem. Qed.

Lemma lstrip_rstrip_fixed (s : pystr) :
  lstrip s = s → lstrip (rstrip s) = rstrip s.
Proof.
  intros Hs. apply lstrip_fixed.
  destruct (rstrip_split s) as (ws & Heq & _).
  destruct (rstrip s) as [|c t]; [by left|]. right. exists c, t. split; [done|].
  apply lstrip_fixed in Hs as [->|(c' & t' & -> & Hc')]; [done|].
  by injection Heq as -> _.
Qed.

Lemma strip_idem (s : pystr) : strip (strip s) = strip s.
Proof.
  unfold strip.
  rewrite (lstrip_rstrip_fixed (lstrip s)) by apply lstrip_idem.
  apply rstrip_idem.
Qed.

(** [strip] removes whitespace only, from both ends. *)
Lemma strip_split (s : pystr) :
  ∃ ws1 ws2, s = ws1 ++ strip s ++ ws2 ∧
    Forall (λ c, isspace c = true) ws1 ∧ Forall (λ c, isspace c = true) ws2.
Proof.
  destruct (lstrip_split s) as (ws1 & Hs1 & Hws1).
  destruct (rstrip_split (lstrip s)) as (ws2 & Hs2 & Hws2).
  exists ws1, ws2. unfold strip. by rewrite <- Hs2.
Qed.

(** ** More on the Survey Table Reader *)

Section reader_more.
Import Survey.
Implicit Types (headers row : list pystr) (data : list (list pystr)).
Implicit Types (qualtrics_data : gmap pystr (gmap pystr pystr)).

Lemma index_None x headers : index x headers = None → x ∉ headers.
Proof.
  intros Hnone Hin. destruct (index_is_Some _ _ Hin) as [i Hi]. congruence.
Qed.

Lemma index_first x headers i :
  index x headers = Some i → ∀ j, j < i → headers !! j ≠ Some x.
Proof.
  revert i. induction headers as [|h headers IH]; intros i; simpl; [done|].
  case_decide as Hh.
  - intros [= <-] j Hj. lia.
  - destruct (index x headers) as [i'|]; simpl; [|done].
    intros [= <-] [|j] Hj; simpl.
    + congruence.
    + apply (IH i'); [done|lia].
Qed.

Lemma read_qualtrics_csv_Return rows qualtrics_data :
  read_qualtrics_csv rows = Return qualtrics_data →
  ∃ headers meta1 meta2 data idx,
    rows = headers :: meta1 :: meta2 :: data ∧
    index ResponseId headers = Some idx ∧
    qualtrics_data = foldl (read_row headers idx) ∅ data.
Proof.
  destruct rows as [|headers [|meta1 [|meta2 data]]]; simpl; try done.
  destruct (index ResponseId headers) as [idx|] eqn:Hidx; [|done].
  intros [= <-]. by exists headers, meta1, meta2, data, idx.
Qed.

Lemma read_rows_lookup_Some headers idx qualtrics_data data rid resp :
  foldl (read_row headers idx) qualtrics_data data !! rid = Some resp →
  qualtrics_data !! rid = Some resp ∨
  ∃ row, row ∈ data ∧ ¬ dropped idx row ∧ row_id idx row = rid ∧
         resp = response_dict headers row.
Proof.
  revert qualtrics_data.
  induction data as [|row data IH]; intros qualtrics_data; simpl; [auto|].
  intros [Hin|(r & ? & ? & ? & ?)]%IH.
  - destruct (dropped_dec idx row) as [Hd|Hk].
    + rewrite read_row_dropped in Hin by done. auto.
    + rewrite read_row_retained in Hin by done.
      apply lookup_insert_Some in Hin as [[<- <-]|[_ ?]]; [|auto].
      right. exists row. split_and!; [by left|done..].
  - right. exists r. split_and!; [by right|done..].
Qed.

Lemma read_rows_size headers idx qualtrics_data data :
  size (foldl (read_row headers idx) qualtrics_data data)
    ≤ size qualtrics_data + length data.
Proof.
  revert qualtrics_data.
  induction data as [|row data IH]; intros qualtrics_data; simpl; [lia|].
  etrans; [apply IH|].
  destruct (dropped_dec idx row) as [Hd|Hk].
  - rewrite read_row_dropped by done. lia.
  - rewrite read_row_retained by done.
    destruct (qualtrics_data !! row_id idx row) as [resp|] eqn:Hrid.
    + rewrite map_size_insert_Some by eauto. lia.
    + rewrite map_size_insert_None by done. lia.
Qed.

(** X1.  How a call of [read_qualtrics_csv] ends depends on the number of
    rows and on the header alone: with fewer than three rows [next(reader)]
    raises [StopIteration], also when the header has no [ResponseId]; with
    three rows or more it exits with status 1 when the header has no column
    named [ResponseId], and returns a mapping when it has one. *)
Theorem read_qualtrics_csv_outcome (rows : list (list pystr)) :
  (read_qualtrics_csv rows = Raise StopIteration ↔ length rows < 3) ∧
  (read_qualtrics_csv rows = Raise (SystemExit 1) ↔
     3 ≤ length rows ∧ ResponseId ∉ default [] (head rows)) ∧
  ((∃ qualtrics_data, read_qualtrics_csv rows = Return qualtrics_data) ↔
     3 ≤ length rows ∧ ResponseId ∈ default [] (head rows)).
Proof.
  destruct rows as [|headers [|meta1 [|meta2 data]]]; simpl.
  1-3: split_and!; split;
    first [ by intros [? ?] | intros [? _]; lia | intros; lia | done ].
  destruct (index ResponseId headers) as [idx|] eqn:Hidx.
  - apply index_Some in Hidx as Hin%list_elem_of_lookup_2. split_and!; split.
    + discriminate.
    + intros. lia.
    + discriminate.
    + by intros [_ ?].
    + intros _. split; [lia|done].
    + intros _. eauto.
  - apply index_None in Hidx. split_and!; split.
    + discriminate.
    + intros. lia.
    + intros _. split; [lia|done].
    + done.
    + by intros [? ?].
    + by intros [_ ?].
Qed.

(** X2.  Every key of the mapping the reader returns is a trimmed, non-empty
    identifier: it is not the empty string and [strip] leaves it as it is. *)
Theorem read_qualtrics_csv_keys_trimmed rows qualtrics_data (rid : pystr) :
  read_qualtrics_csv rows = Return qualtrics_data →
  rid ∈ dom qualtrics_data →
  rid ≠ [] ∧ strip rid = rid.
Proof.
  intros (headers & meta1 & meta2 & data & idx & -> & Hidx & ->)
    %read_qualtrics_csv_Return.
  intros [Hin|(row & _ & Hk & <-)]%read_rows_dom.
  { by rewrite dom_empty_L in Hin. }
  split.
  - intros Hid. apply Hk. unfold dropped. auto.
  - apply strip_idem.
Qed.

(** X3.  Every entry of the mapping is the field mapping of one of the data
    rows: a retained row whose trimmed identifier is the entry's key.  So
    all responses have the header's column names as their keys, and there
    are never more responses than data rows. *)
Theorem read_qualtrics_csv_entries headers meta1 meta2 data qualtrics_data :
  read_qualtrics_csv (headers :: meta1 :: meta2 :: data) = Return qualtrics_data →
  ∃ idx, index ResponseId headers = Some idx ∧
    size qualtrics_data ≤ length data ∧
    ∀ rid resp, qualtrics_data !! rid = Some resp →
      dom resp = list_to_set headers ∧
      ∃ row, row ∈ data ∧ ¬ dropped idx row ∧ row_id idx row = rid ∧
             resp = response_dict headers row.
Proof.
  intros (? & ? & ? & ? & idx & [= <- <- <- <-] & Hidx & ->)
    %read_qualtrics_csv_Return.
  exists idx. split_and!; [done|..].
  - pose proof (read_rows_size headers idx ∅ data) as Hsize.
    by rewrite map_size_empty in Hsize.
  - intros rid resp [Hin|(row & ? & ? & ? & ->)]%read_rows_lookup_Some.
    { by rewrite lookup_empty in Hin. }
    split; [apply dom_response_dict|eauto].
Qed.

(** X4.  When [ResponseId] names one column only, each response is stored
    under the trimmed value of its own [ResponseId] field, and the field
    itself keeps the cell as it was read, untrimmed. *)
Theorem read_qualtrics_csv_key_is_own_id
    headers meta1 meta2 data qualtrics_data idx (rid : pystr) resp :
  read_qualtrics_csv (headers :: meta1 :: meta2 :: data) = Return qualtrics_data →
  index ResponseId headers = Some idx →
  (∀ j, idx < j → headers !! j ≠ Some ResponseId) →
  qualtrics_data !! rid = Some resp →
  ∃ cell, resp !! ResponseId = Some cell ∧ strip cell = rid ∧
    ∃ row, row ∈ data ∧ row !! idx = Some cell.
Proof.
  intros (? & ? & ? & ? & idx' & [= <- <- <- <-] & Hidx' & ->)
    %read_qualtrics_csv_Return Hidx Hlast.
  assert (idx' = idx) as -> by congruence.
  intros [Hin|(row & Hrow & Hk & <- & ->)]%read_rows_lookup_Some.
  { by rewrite lookup_empty in Hin. }
  assert (idx < length row) as Hlt.
  { destruct (decide (idx < length row)); [done|].
    exfalso. apply Hk. unfold dropped. right; left. lia. }
  destruct (lookup_lt_is_Some_2 row idx Hlt) as [cell Hcell].
  exists cell. split_and!.
  - apply (response_dict_present headers row idx); [|done..].
    by apply index_Some.
  - unfold row_id. by rewrite (nth_lookup_Some _ _ _ _ Hcell).
  - eauto.
Qed.
End reader_more.

(** ** More on [merge_data] *)

Section merge_more.
Import Merge.
Implicit Types (qualtrics_data : gmap pystr (gmap pystr pystr)).
Implicit Types (log m resp : gmap pystr pystr).
Implicit Types (logs : list (gmap pystr pystr)).

(** What one pass of the loop does to the accumulators. *)
Lemma merge_step_matches qualtrics_data st log :
  matches qualtrics_data log →
  matched_count (merge_step qualtrics_data st log) = matched_count st + 1 ∧
  unmatched_count (merge_step qualtrics_data st log) = unmatched_count st ∧
  matched_response_ids (merge_step qualtrics_data st log)
    = {[foreign_key log]} ∪ matched_response_ids st.
Proof.
  intros [Hfk [resp Hresp]%elem_of_dom]. unfold merge_step.
  fold (foreign_key log). apply is_empty_false in Hfk. by rewrite Hfk, Hresp.
Qed.

Lemma merge_step_no_match qualtrics_data st log :
  ¬ matches qualtrics_data log →
  matched_count (merge_step qualtrics_data st log) = matched_count st ∧
  unmatched_count (merge_step qualtrics_data st log) = unmatched_count st + 1 ∧
  matched_response_ids (merge_step qualtrics_data st log)
    = matched_response_ids st.
Proof.
  intros Hno. unfold merge_step. fold (foreign_key log).
  destruct (is_empty (foreign_key log)) eqn:Hfk; [done|].
  destruct (qualtrics_data !! foreign_key log) as [resp|] eqn:Hresp; [|done].
  exfalso. apply Hno. split; [by apply is_empty_false|].
  apply elem_of_dom. eauto.
Qed.

Lemma counters_foldl qualtrics_data st logs :
  let st' := foldl (merge_step qualtrics_data) st logs in
  matched_count st'
    = matched_count st + length (filter (matches qualtrics_data) logs) ∧
  unmatched_count st'
    = unmatched_count st
      + length (filter (λ log, ¬ matches qualtrics_data log) logs) ∧
  matched_response_ids st'
    = matched_response_ids st
      ∪ list_to_set (foreign_key <$> filter (matches qualtrics_data) logs).
Proof.
  revert st. induction logs as [|log logs IH]; intros st; simpl.
  - split_and!; [lia..|]. by rewrite union_empty_r_L.
  - destruct (IH (merge_step qualtrics_data st log)) as (-> & -> & ->).
    rewrite !filter_cons.
    destruct (decide (matches qualtrics_data log)) as [Hm|Hm].
    + destruct (merge_step_matches _ st _ Hm) as (-> & -> & ->).
      rewrite decide_False by tauto. simpl.
      split_and!; [lia..|]. by rewrite (union_comm_L {[_]}), union_assoc_L.
    + destruct (merge_step_no_match _ st _ Hm) as (-> & -> & ->).
      rewrite decide_True by done. simpl. split_and!; [lia..|done].
Qed.

Lemma size_list_to_set_le (l : list pystr) :
  size (list_to_set l : gset pystr) ≤ length l.
Proof.
  induction l as [|x l IH].
  - rewrite list_to_set_nil, size_empty. done.
  - rewrite list_to_set_cons, size_union_alt, size_singleton. simpl.
    assert (size (list_to_set l ∖ {[x]} : gset pystr)
            ≤ size (list_to_set l : gset pystr))
      by (apply subseteq_size, subseteq_difference_l; reflexivity).
    lia.
Qed.

(** X5.  The two counters count the log records by outcome: [matched_count]
    those with a non-empty foreign key that is in the survey index,
    [unmatched_count] all others. *)
Theorem merge_data_counters qualtrics_data logs :
  matched_count (merge_data qualtrics_data logs)
    = length (filter (matches qualtrics_data) logs) ∧
  unmatched_count (merge_data qualtrics_data logs)
    = length (filter (λ log, ¬ matches qualtrics_data log) logs).
Proof.
  destruct (counters_foldl qualtrics_data init logs) as (Hm & Hu & _).
  unfold merge_data. by rewrite Hm, Hu.
Qed.

(** X6.  [matched_response_ids] is the set of the foreign keys of the
    matched log records.  It is a subset of the survey index's keys and has
    at most [matched_count] elements: several log records matched to one
    response count once in the set and each in the counter. *)
Theorem merge_data_matched_response_ids qualtrics_data logs :
  (∀ rid, rid ∈ matched_response_ids (merge_data qualtrics_data logs) ↔
          ∃ log, log ∈ logs ∧ matches qualtrics_data log ∧
                 foreign_key log = rid) ∧
  matched_response_ids (merge_data qualtrics_data logs) ⊆ dom qualtrics_data ∧
  size (matched_response_ids (merge_data qualtrics_data logs))
    ≤ matched_count (merge_data qualtrics_data logs).
Proof.
  destruct (counters_foldl qualtrics_data init logs) as (Hm & _ & Hids).
  unfold merge_data. rewrite Hm, Hids.
  change (matched_response_ids init) with (∅ : gset pystr).
  change (matched_count init) with 0.
  assert (∀ rid,
    rid ∈ (list_to_set (foreign_key <$> filter (matches qualtrics_data) logs)
           : gset pystr) ↔
    ∃ log, log ∈ logs ∧ matches qualtrics_data log ∧ foreign_key log = rid)
    as Hchar.
  { intros rid. rewrite elem_of_list_to_set, list_elem_of_fmap. split.
    - intros (log & -> & [? ?]%list_elem_of_filter). eauto.
    - intros (log & ? & ? & <-). exists log. split; [done|].
      by apply list_elem_of_filter. }
  split_and!.
  - intros rid. rewrite union_empty_l_L. apply Hchar.
  - rewrite union_empty_l_L.
    intros rid (log & _ & [_ ?] & <-)%Hchar. done.
  - rewrite union_empty_l_L.
    etrans; [apply size_list_to_set_le|]. by rewrite length_fmap.
Qed.

(** X7.  Merging a log in two parts gives the same as merging it whole:
    the records of the second part follow those of the first, the counters
    add up and the identifier sets are united. *)
Theorem merge_data_app qualtrics_data logs1 logs2 :
  merged (merge_data qualtrics_data (logs1 ++ logs2))
    = merged (merge_data qualtrics_data logs1)
      ++ merged (merge_data qualtrics_data logs2) ∧
  matched_count (merge_data qualtrics_data (logs1 ++ logs2))
    = matched_count (merge_data qualtrics_data logs1)
      + matched_count (merge_data qualtrics_data logs2) ∧
  unmatched_count (merge_data qualtrics_data (logs1 ++ logs2))
    = unmatched_count (merge_data qualtrics_data logs1)
      + unmatched_count (merge_data qualtrics_data logs2) ∧
  matched_response_ids (merge_data qualtrics_data (logs1 ++ logs2))
    = matched_response_ids (merge_data qualtrics_data logs1)
      ∪ matched_response_ids (merge_data qualtrics_data logs2).
Proof.
  rewrite !merged_merge_data, fmap_app.
  destruct (counters_foldl qualtrics_data init (logs1 ++ logs2))
    as (Hm & Hu & Hids).
  destruct (counters_foldl qualtrics_data init logs1) as (Hm1 & Hu1 & Hids1).
  destruct (counters_foldl qualtrics_data init logs2) as (Hm2 & Hu2 & Hids2).
  unfold merge_data. rewrite Hm, Hu, Hids, Hm1, Hu1, Hids1, Hm2, Hu2, Hids2.
  rewrite !filter_app, fmap_app, !length_app, list_to_set_app_L. simpl.
  split_and!; [done|lia|lia|]. by rewrite !union_empty_l_L.
Qed.
End merge_more.

Section merge_records.
Import Merge.
Implicit Types (qualtrics_data : gmap pystr (gmap pystr pystr)).
Implicit Types (log m resp : gmap pystr pystr).
Implicit Types (logs : list (gmap pystr pystr)).

Lemma elem_of_dom_add_items (items : list (pystr * pystr)) m (k : pystr) :
  k ∈ dom (add_items items m) ↔
  k ∈ dom m ∨ ∃ kv, kv ∈ items ∧ k = qualtrics_ ++ kv.1.
Proof.
  revert m. induction items as [|kv items IH]; intros m; simpl.
  - split; [auto|]. intros [?|(kv & []%elem_of_nil & _)]. done.
  - rewrite IH, dom_insert_L, elem_of_union, elem_of_singleton. split.
    + intros [[->|?]|(kv' & ? & ?)]; [|auto|].
      * right. exists kv. split; [by left|done].
      * right. exists kv'. split; [by right|done].
    + intros [?|(kv' & [->|?]%elem_of_cons & ?)]; [auto|auto|eauto].
Qed.

Lemma elem_of_dom_add_qualtrics_fields resp m (k : pystr) :
  k ∈ dom (add_qualtrics_fields resp m) ↔
  k ∈ dom m ∨ ∃ k', k' ∈ dom resp ∧ k = qualtrics_ ++ k'.
Proof.
  unfold add_qualtrics_fields. rewrite elem_of_dom_add_items. split.
  - intros [?|([k' v] & Hin%elem_of_map_to_list & ->)]; [auto|].
    right. exists k'. split; [|done]. apply elem_of_dom. eauto.
  - intros [?|(k' & [v Hv]%elem_of_dom & ->)]; [auto|].
    right. exists (k', v). split; [|done]. by apply elem_of_map_to_list.
Qed.

(** Adding survey fields the record already holds changes nothing. *)
Lemma add_qualtrics_fields_absorb resp m :
  (∀ k v, resp !! k = Some v → m !! (qualtrics_ ++ k) = Some v) →
  add_qualtrics_fields resp m = m.
Proof.
  intros Hheld. apply map_eq. intros k.
  destruct (startswith k qualtrics_) eqn:Hpre.
  - apply startswith_spec in Hpre as [t ->].
    destruct (resp !! t) as [v|] eqn:Ht.
    + by rewrite (add_qualtrics_fields_here _ _ _ _ Ht), (Hheld _ _ Ht).
    + apply add_qualtrics_fields_other.
      intros k' [v Hv]%elem_of_dom Heq%(inj (app qualtrics_)). congruence.
  - by apply add_qualtrics_fields_unprefixed.
Qed.

Lemma foreign_key_merged_log qualtrics_data log :
  foreign_key (merged_log qualtrics_data log) = foreign_key log.
Proof.
  unfold foreign_key. f_equal. f_equal.
  destruct (merged_log_cases qualtrics_data log)
    as [[_ ->]|[(_ & resp & _ & ->)|(_ & _ & ->)]];
    rewrite lookup_insert_ne by done; [done| |done].
  by apply add_qualtrics_fields_unprefixed.
Qed.

Lemma merged_log_idem qualtrics_data log :
  merged_log qualtrics_data (merged_log qualtrics_data log)
    = merged_log qualtrics_data log.
Proof.
  destruct (merged_log_cases qualtrics_data log)
    as [[Hfk Heq]|[(Hfk & resp & Hresp & Heq)|(Hfk & Hresp & Heq)]].
  - rewrite Heq at 2. unfold merged_log at 1.
    rewrite foreign_key_merged_log, Hfk. simpl.
    by rewrite Heq, insert_insert_eq.
  - rewrite Heq at 2. unfold merged_log at 1.
    rewrite foreign_key_merged_log, Hresp.
    apply is_empty_false in Hfk. rewrite Hfk.
    rewrite add_qualtrics_fields_absorb; [by rewrite Heq, insert_insert_eq|].
    intros k v Hk. rewrite Heq.
    rewrite lookup_insert_ne by (apply not_eq_sym, prefixed_ne_match_status).
    by apply add_qualtrics_fields_here.
  - rewrite Heq at 2. unfold merged_log at 1.
    rewrite foreign_key_merged_log, Hresp.
    apply is_empty_false in Hfk. rewrite Hfk.
    by rewrite Heq, insert_insert_eq.
Qed.

Lemma matches_merged_log qualtrics_data log :
  matches qualtrics_data (merged_log qualtrics_data log)
  ↔ matches qualtrics_data log.
Proof. unfold matches. by rewrite foreign_key_merged_log. Qed.

(** X8.  The keys of a merged record are [_match_status], the keys of its
    log record and, when the record found its survey response, the names of
    that response's fields prefixed with [qualtrics_]; nothing else.  So a
    record that found no response gets no survey column. *)
Theorem merge_data_record_keys qualtrics_data logs (i : nat) log m :
  logs !! i = Some log →
  merged (merge_data qualtrics_data logs) !! i = Some m →
  ∀ k, k ∈ dom m ↔
    k = _match_status ∨ k ∈ dom log ∨
    ∃ resp k', foreign_key log ≠ [] ∧
      qualtrics_data !! foreign_key log = Some resp ∧
      k' ∈ dom resp ∧ k = qualtrics_ ++ k'.
Proof.
  intros Hlog Hm k. rewrite (merged_lookup _ _ _ _ _ Hlog Hm).
  destruct (merged_log_cases qualtrics_data log)
    as [[Hfk ->]|[(Hfk & resp & Hresp & ->)|(Hfk & Hresp & ->)]];
    rewrite dom_insert_L, elem_of_union, elem_of_singleton.
  - split; [tauto|]. intros [?|[?|(? & ? & ? & _)]]; auto. done.
  - rewrite elem_of_dom_add_qualtrics_fields. split.
    + intros [?|[?|(k' & ? & ?)]]; [auto|auto|].
      right; right. by exists resp, k'.
    + intros [?|[?|(resp' & k' & _ & Hresp' & ? & ?)]]; [auto|auto|].
      assert (resp' = resp) as -> by congruence. eauto.
  - split; [tauto|]. intros [?|[?|(? & ? & _ & ? & _)]]; auto. congruence.
Qed.

Lemma filter_matches_merged qualtrics_data logs :
  filter (matches qualtrics_data) (merged_log qualtrics_data <$> logs)
  = merged_log qualtrics_data <$> filter (matches qualtrics_data) logs.
Proof.
  induction logs as [|log logs IH]; [done|].
  rewrite fmap_cons, !filter_cons, IH.
  destruct (decide (matches qualtrics_data log)) as [Hm|Hm].
  - by rewrite decide_True by by apply matches_merged_log.
  - by rewrite decide_False by by rewrite matches_merged_log.
Qed.

Lemma filter_no_match_merged qualtrics_data logs :
  length (filter (λ log, ¬ matches qualtrics_data log)
            (merged_log qualtrics_data <$> logs))
  = length (filter (λ log, ¬ matches qualtrics_data log) logs).
Proof.
  induction logs as [|log logs IH]; [done|].
  rewrite fmap_cons, !filter_cons.
  destruct (decide (matches qualtrics_data log)) as [Hm|Hm].
  - rewrite !decide_False; [done|tauto|]. rewrite matches_merged_log. tauto.
  - rewrite !decide_True; [simpl; by rewrite IH|done|].
    by rewrite matches_merged_log.
Qed.

(** X9.  Merging is idempotent: merging the merged records again, against
    the same survey index, gives the same records and the same counters
    and identifier set. *)
Theorem merge_data_idempotent qualtrics_data logs :
  let once := merge_data qualtrics_data logs in
  let twice := merge_data qualtrics_data (merged once) in
  merged twice = merged once ∧
  matched_count twice = matched_count once ∧
  unmatched_count twice = unmatched_count once ∧
  matched_response_ids twice = matched_response_ids once.
Proof.
  simpl. rewrite !merged_merge_data.
  destruct (counters_foldl qualtrics_data init
              (merged_log qualtrics_data <$> logs)) as (Hm2 & Hu2 & Hids2).
  destruct (counters_foldl qualtrics_data init logs) as (Hm1 & Hu1 & Hids1).
  unfold merge_data. rewrite Hm2, Hu2, Hids2, Hm1, Hu1, Hids1.
  rewrite filter_matches_merged, filter_no_match_merged.
  split_and!.
  - rewrite <- list_fmap_compose. apply list_fmap_ext.
    intros _ log _. apply merged_log_idem.
  - by rewrite length_fmap.
  - done.
  - do 2 f_equal. rewrite <- list_fmap_compose. apply list_fmap_ext.
    intros _ log _. apply foreign_key_merged_log.
Qed.
End merge_records.

(** ** The reader and the merge together *)

Section join.
Import Survey Merge.

Lemma response_dict_last (headers row : list pystr) (j : nat) (h : pystr) :
  headers !! j = Some h → (∀ j', j < j' → headers !! j' ≠ Some h) →
  response_dict headers row !! h = Some (default [] (row !! j)).
Proof.
  intros Hj Hlast. destruct (row !! j) as [v|] eqn:Hv; simpl.
  - by apply (response_dict_present headers row j).
  - apply (response_dict_absent headers row j); [done|].
    by apply lookup_ge_None.
Qed.

(** X10.  The join, from file to record.  A log record whose trimmed
    [qualtricsResponseId] equals the trimmed identifier of a retained survey
    row, that row being the last one with the identifier, is tagged
    [matched], and for every header column whose name is not repeated later
    its merged record holds, under [qualtrics_] + name, the row's cell in
    that column, or the empty string when the row ends before it.  White
    space around the identifier, on either side, does not matter. *)
Theorem survey_cells_reach_merged_record
    (headers meta1 meta2 row : list pystr) (data1 data2 : list (list pystr))
    (idx : nat) (qualtrics_data : gmap pystr (gmap pystr pystr))
    (logs : list (gmap pystr pystr)) (i : nat) (log m : gmap pystr pystr) :
  read_qualtrics_csv (headers :: meta1 :: meta2 :: data1 ++ row :: data2)
    = Return qualtrics_data →
  index ResponseId headers = Some idx →
  ¬ dropped idx row →
  (∀ r, r ∈ data2 → dropped idx r ∨ row_id idx r ≠ row_id idx row) →
  logs !! i = Some log →
  merged (merge_data qualtrics_data logs) !! i = Some m →
  foreign_key log = row_id idx row →
  m !! _match_status = Some (py "matched") ∧
  ∀ j h, headers !! j = Some h → (∀ j', j < j' → headers !! j' ≠ Some h) →
         m !! (qualtrics_ ++ h) = Some (default [] (row !! j)).
Proof.
  intros (? & ? & ? & ? & idx' & [= <- <- <- <-] & Hidx' & ->)
    %read_qualtrics_csv_Return Hidx Hk Hrest Hlog Hm Hfk.
  assert (idx' = idx) as -> by congruence.
  pose proof (read_rows_last headers idx ∅ data1 row data2 Hk Hrest) as Hresp.
  rewrite <- Hfk in Hresp.
  rewrite (merged_lookup _ _ _ _ _ Hlog Hm).
  destruct (merged_log_cases
              (foldl (read_row headers idx) ∅ (data1 ++ row :: data2)) log)
    as [[Hfk' _]|[(_ & resp & Hresp' & ->)|(_ & Hnone & _)]].
  - exfalso. apply Hk. unfold dropped. rewrite <- Hfk. auto.
  - assert (resp = response_dict headers row) as -> by congruence.
    split; [by rewrite lookup_insert_eq|]. intros j h Hj Hlast.
    rewrite lookup_insert_ne by (apply not_eq_sym, prefixed_ne_match_status).
    apply add_qualtrics_fields_here. by apply response_dict_last.
  - congruence.
Qed.
End join.

(** ** More on the store *)

Section store_more.
Import Store.

(** X11.  The store-level [merge_data] computes what the value-level one
    does.  On valid inputs it returns; the store after the call is the
    store before it followed by exactly the records [Merge.merge_data]
    builds from the dictionaries the inputs refer to; [merged] lists the
    references to these new objects, one per log entry and all different,
    also when the log list names one object several times; and the
    counters and the identifier set are those of the value-level merge. *)
Theorem store_merge_data_refines (σ : store) (qualtrics_data : gmap pystr ref)
    (logs : list ref) :
  valid_inputs σ qualtrics_data logs →
  ∃ st os,
    Forall2 (λ log o, σ !! log = Some o) logs os ∧
    merge_data qualtrics_data logs σ =
      Some (st, σ ++ Merge.merged
                       (Merge.merge_data (deref_index σ qualtrics_data) os)) ∧
    merged st = seq (length σ) (length logs) ∧
    NoDup (merged st) ∧
    counters_agree st (Merge.merge_data (deref_index σ qualtrics_data) os).
Proof.
  intros Hvalid.
  destruct (valid_inputs_objects _ _ _ Hvalid) as [os Hos].
  destruct (merge_data_run σ qualtrics_data logs os (proj1 Hvalid) Hos)
    as (st & Hrun & Hmerged & Hst).
  exists st, os. split_and!; [done..| |done].
  rewrite Hmerged. apply NoDup_seq.
Qed.
End store_more.

(** ** More on the column order and the file written *)

Section writer_more.
Import Writer.
Implicit Types (U : gset pystr) (k : pystr).
Implicit Types (merged_data : list (gmap pystr pystr)).

Lemma NoDup_standard_log_keys : NoDup standard_log_keys.
Proof. apply (bool_decide_unpack _). by vm_compute. Qed.

Lemma elem_of_ordered_keys (iter : gset pystr → list pystr) U k :
  iter U ≡ₚ elements U → k ∈ ordered_keys iter U ↔ k ∈ U.
Proof.
  intros Hperm. split; [|by apply ordered_keys_cover].
  rewrite ordered_keys_unfold. cbv zeta. rewrite !elem_of_app.
  intros [Hk|[Hk|[Hk|Hk]]].
  - by apply list_elem_of_filter in Hk as [? _].
  - by apply elem_of_stage in Hk as [_ ?].
  - by apply elem_of_stage in Hk as [_ ?].
  - by apply elem_of_stage in Hk as [_ ?].
Qed.

Lemma NoDup_ordered_keys (iter : gset pystr → list pystr) U :
  iter U ≡ₚ elements U → NoDup (ordered_keys iter U).
Proof.
  intros Hperm. rewrite ordered_keys_unfold. cbv zeta.
  apply NoDup_app. split_and!.
  { apply NoDup_filter, NoDup_standard_log_keys. }
  { intros k Hk. rewrite !elem_of_app.
    intros [H|[H|H]]; apply elem_of_stage in H as [HP _]; try done.
    - destruct HP as [_ Hn]. by apply Hn, elem_of_seen.
    - destruct HP as [Hn _]. apply Hn, elem_of_union. left.
      by apply elem_of_seen.
    - apply list_elem_of_filter in Hk as [_ Hstd].
      apply standard_keys_no_underscore in Hstd.
      rewrite Hstd in HP. done. }
  apply NoDup_app. split_and!.
  { by apply stage_spec. }
  { intros k Hk. rewrite !elem_of_app.
    intros [H|H]; apply elem_of_stage in H as [HP _]; try done.
    - destruct HP as [Hn _]. apply Hn, elem_of_union. right.
      by apply elem_of_list_to_set.
    - apply elem_of_stage in Hk as [[Hpre _] _]; [|done].
      apply Is_true_true, prefixed_no_underscore in Hpre.
      rewrite Hpre in HP. done. }
  apply NoDup_app. split_and!.
  { by apply stage_spec. }
  { intros k Hk H.
    apply elem_of_stage in Hk as [[_ Hno] _]; [|done].
    apply elem_of_stage in H as [HP _]; done. }
  by apply stage_spec.
Qed.

Lemma write_merged_csv_cons (iter : gset pystr → list pystr)
    (record : gmap pystr pystr) records :
  (∀ s, iter s ≡ₚ elements s) →
  let merged_data := record :: records in
  let fieldnames := ordered_keys iter (all_keys merged_data) in
  write_merged_csv iter merged_data =
    Return {| stdout := [];
              output_file := Some {|
                header := fieldnames;
                body := (λ record, (λ key, default [] (record !! key))
                                     <$> fieldnames) <$> merged_data |} |}.
Proof.
  intros Hiter merged_data fieldnames.
  unfold write_merged_csv. simpl is_empty. cbv iota.
  fold merged_data. fold fieldnames.
  rewrite writerows_covered; [done|].
  apply Forall_forall. intros r Hr k Hk.
  apply elem_of_list_to_set, ordered_keys_cover; [done|].
  apply elem_of_all_keys. eauto.
Qed.

(** X12.  The header row has every key of every record exactly once: the
    column order has no repetition, and a name is a column iff it is a key
    of some merged record. *)
Theorem ordered_keys_exact (iter : gset pystr → list pystr) merged_data :
  (∀ s, iter s ≡ₚ elements s) →
  NoDup (ordered_keys iter (all_keys merged_data)) ∧
  ∀ k, k ∈ ordered_keys iter (all_keys merged_data) ↔
       ∃ record, record ∈ merged_data ∧ k ∈ dom record.
Proof.
  intros Hiter. split; [by apply NoDup_ordered_keys|].
  intros k. by rewrite elem_of_ordered_keys, elem_of_all_keys.
Qed.

End writer_more.

(** ** The Log Table Reader *)

Section dashboard.
Import Dashboard.
Implicit Types (fieldnames row : list pystr) (data : list (list pystr)).

Lemma zip_snoc_short fieldnames (h : pystr) row :
  length row ≤ length fieldnames →
  zip (fieldnames ++ [h]) row = zip fieldnames row.
Proof.
  revert row. induction fieldnames as [|x fieldnames IH]; intros [|c row];
    simpl; intros Hlen; try done; try lia.
  f_equal. apply IH. lia.
Qed.

Lemma zip_snoc_long fieldnames (h c : pystr) row :
  row !! length fieldnames = Some c →
  zip (fieldnames ++ [h]) row = zip fieldnames row ++ [(h, c)].
Proof.
  revert row. induction fieldnames as [|x fieldnames IH]; intros [|c' row];
    simpl; intros Hc; try done.
  - by injection Hc as ->.
  - f_equal. by apply IH.
Qed.

Lemma fields_to_record fieldnames row :
  fields (to_record fieldnames row) =
  foldl (λ d key, <[key := None]> d) (zip_dict fieldnames row)
        (drop (length row) fieldnames).
Proof.
  unfold to_record.
  destruct (Nat.ltb_spec (length fieldnames) (length row)).
  { simpl. by rewrite drop_ge by lia. }
  destruct (Nat.ltb_spec (length row) (length fieldnames)); [done|].
  simpl. by rewrite drop_ge by lia.
Qed.

Lemma rest_to_record fieldnames row :
  rest (to_record fieldnames row) =
  if (length fieldnames <? length row)%nat
  then Some (drop (length fieldnames) row) else None.
Proof.
  unfold to_record. destruct (length fieldnames <? length row)%nat; [done|].
  by destruct (length row <? length fieldnames)%nat.
Qed.

(** Column by column: a new last column is assigned the row's cell in it,
    or [None] when the row ends before it. *)
Lemma fields_to_record_snoc fieldnames (h : pystr) row :
  fields (to_record (fieldnames ++ [h]) row) =
  <[h := row !! length fieldnames]> (fields (to_record fieldnames row)).
Proof.
  rewrite !fields_to_record. unfold zip_dict.
  destruct (row !! length fieldnames) as [c|] eqn:Hc.
  - apply lookup_lt_Some in Hc as Hlt.
    rewrite (zip_snoc_long _ _ _ _ Hc), foldl_app.
    rewrite !drop_ge by (rewrite ?length_app; simpl; lia). done.
  - apply lookup_ge_None in Hc.
    rewrite zip_snoc_short by done.
    by rewrite drop_app_le, foldl_app by done.
Qed.

Lemma fields_to_record_nil row : fields (to_record [] row) = ∅.
Proof. rewrite fields_to_record. by rewrite drop_nil. Qed.

Lemma dom_fields_to_record fieldnames row :
  dom (fields (to_record fieldnames row)) = list_to_set fieldnames.
Proof.
  induction fieldnames as [|h fieldnames IH] using rev_ind.
  - by rewrite fields_to_record_nil, dom_empty_L.
  - rewrite fields_to_record_snoc, dom_insert_L, IH, list_to_set_snoc_L.
    apply union_comm_L.
Qed.

Lemma fields_to_record_last fieldnames row (j : nat) (h : pystr) :
  fieldnames !! j = Some h →
  (∀ j', j < j' → fieldnames !! j' ≠ Some h) →
  fields (to_record fieldnames row) !! h = Some (row !! j).
Proof.
  revert j. induction fieldnames as [|h' fieldnames IH] using rev_ind;
    intros j Hj Hlast; [done|].
  rewrite fields_to_record_snoc.
  destruct (decide (h' = h)) as [->|Hne].
  - rewrite lookup_insert_eq. do 2 f_equal.
    destruct (decide (j = length fieldnames)) as [->|Hj']; [done|].
    exfalso. apply (Hlast (length fieldnames)).
    + apply lookup_lt_Some in Hj. rewrite length_app in Hj. simpl in Hj. lia.
    + by rewrite lookup_app_r, Nat.sub_diag.
  - rewrite lookup_insert_ne by done.
    assert (fieldnames !! j = Some h) as Hj'.
    { apply lookup_app_Some in Hj as [Hj|[_ Hj]]; [done|].
      by apply list_lookup_singleton_Some in Hj as [_ ?]. }
    apply (IH j); [done|].
    intros j' Hlt Hj''. apply (Hlast j' Hlt).
    by rewrite lookup_app_l by (by eapply lookup_lt_Some).
Qed.

(** X14.  [read_dashboard_csv] never fails on the rows of a file.  An empty
    file gives no record.  Otherwise the first row names the fields and
    there is one record per non-empty data row, in file order; every
    record has exactly the header's names as its named fields, whatever
    the row's length; a field whose name is not repeated later in the
    header holds the row's cell in its column, and [None] when the row ends
    before the column; and the cells beyond the header, if any, are kept
    as a list under the key [None]. *)
Theorem read_dashboard_csv_records fieldnames data :
  read_dashboard_csv [] = [] ∧
  Forall2 (λ row log,
             row ≠ [] ∧
             dom (fields log) = list_to_set fieldnames ∧
             (∀ j h, fieldnames !! j = Some h →
                     (∀ j', j < j' → fieldnames !! j' ≠ Some h) →
                     fields log !! h = Some (row !! j)) ∧
             rest log = (if (length fieldnames <? length row)%nat
                         then Some (drop (length fieldnames) row) else None))
          (filter (λ row, row ≠ []) data)
          (read_dashboard_csv (fieldnames :: data)).
Proof.
  split; [done|]. simpl.
  apply Forall2_fmap_r, Forall_Forall2_diag, Forall_forall.
  intros row [Hne _]%list_elem_of_filter. simpl. split_and!.
  - done.
  - apply dom_fields_to_record.
  - intros j h. apply fields_to_record_last.
  - apply rest_to_record.
Qed.
End dashboard.

(** ** [merge_data] on the records of the log reader *)

Section raw_merge.
Import Dashboard Raw.
Implicit Types (qualtrics_data : gmap pystr (gmap pystr pystr)).
Implicit Types (log : record) (logs : list record) (d : gmap pystr pystr).

Lemma lookup_strs log (k : pystr) : strs log !! k = fields log !! k ≫= id.
Proof. unfold strs. by rewrite lookup_omap. Qed.

Lemma response_id_of_None log :
  id_is_None log → response_id_of log = Fail AttributeError.
Proof. unfold id_is_None, response_id_of. by intros ->. Qed.

Lemma response_id_of_str log :
  ¬ id_is_None log → response_id_of log = Ok (foreign_key (strs log)).
Proof.
  unfold id_is_None, response_id_of, foreign_key. rewrite lookup_strs.
  by destruct (fields log !! qualtricsResponseId) as [[v|]|].
Qed.

Lemma lift_strs log : lift log (strs log) = log.
Proof.
  destruct log as [f r]. unfold lift, strs. simpl. f_equal.
  apply map_eq. intros k.
  rewrite lookup_union, lookup_fmap, lookup_omap.
  by destruct (f !! k) as [[v|]|].
Qed.

Lemma setitem_lift log d (k v : pystr) :
  setitem k v (lift log d) = lift log (<[k := v]> d).
Proof.
  unfold setitem, lift. simpl. f_equal.
  by rewrite fmap_insert, insert_union_l.
Qed.

Lemma add_items_lift log d (items : list (pystr * pystr)) :
  add_items items (lift log d) = lift log (Merge.add_items items d).
Proof.
  revert d. induction items as [|kv items IH]; intros d; [done|].
  simpl. by rewrite setitem_lift, IH.
Qed.

(** One pass of the loop on a record whose identifier is not [None]: the
    value-level record of the record's string fields, written over it. *)
Lemma raw_merge_step qualtrics_data st vst log :
  ¬ id_is_None log → raw_counters_agree st vst →
  ∃ st', merge_step qualtrics_data st log = Ok st' ∧
    merged st' = merged st ++ [lift log (merged_log qualtrics_data (strs log))] ∧
    raw_counters_agree st' (Merge.merge_step qualtrics_data vst (strs log)).
Proof.
  intros Hid (Hm & Hu & Hids).
  unfold merge_step, Merge.merge_step, merged_log.
  rewrite response_id_of_str by done. fold (foreign_key (strs log)).
  destruct (is_empty _).
  { eexists. split_and!; [done| |split_and!; simpl; congruence].
    simpl. by rewrite <- setitem_lift, lift_strs. }
  destruct (qualtrics_data !! _) as [resp|].
  - eexists. split_and!; [done| |split_and!; simpl; congruence].
    simpl. unfold Merge.add_qualtrics_fields.
    by rewrite <- setitem_lift, <- add_items_lift, lift_strs.
  - eexists. split_and!; [done| |split_and!; simpl; congruence].
    simpl. by rewrite <- setitem_lift, lift_strs.
Qed.

Lemma raw_merge_loop qualtrics_data logs :
  Forall (λ log, ¬ id_is_None log) logs →
  ∀ st vst, raw_counters_agree st vst →
  ∃ st', merge_loop qualtrics_data st logs = Ok st' ∧
    merged st' = merged st
      ++ ((λ log, lift log (merged_log qualtrics_data (strs log))) <$> logs) ∧
    raw_counters_agree st'
      (foldl (Merge.merge_step qualtrics_data) vst (strs <$> logs)).
Proof.
  induction 1 as [|log logs Hid _ IH]; intros st vst Hst; simpl.
  - exists st. by rewrite app_nil_r.
  - destruct (raw_merge_step qualtrics_data st vst log Hid Hst)
      as (st1 & -> & Hmerged1 & Hst1).
    destruct (IH st1 _ Hst1) as (st' & -> & Hmerged & Hst').
    exists st'. split_and!; [done| |done].
    by rewrite Hmerged, Hmerged1, <- app_assoc.
Qed.

Lemma raw_merge_step_Ok qualtrics_data st log :
  ¬ id_is_None log → ∃ st', merge_step qualtrics_data st log = Ok st'.
Proof.
  intros Hid. unfold merge_step. rewrite response_id_of_str by done.
  destruct (is_empty _); [eauto|]. destruct (qualtrics_data !! _); eauto.
Qed.

Lemma raw_merge_loop_None qualtrics_data logs st :
  Exists id_is_None logs →
  merge_loop qualtrics_data st logs = Fail AttributeError.
Proof.
  intros Hex. revert st. induction logs as [|log logs IH]; intros st.
  { by apply Exists_nil in Hex. }
  simpl. destruct (decide (id_is_None log)) as [Hid|Hid].
  - unfold merge_step. by rewrite response_id_of_None.
  - apply Exists_cons in Hex as [?|Hex]; [done|].
    destruct (raw_merge_step_Ok qualtrics_data st log Hid) as (st1 & ->).
    by apply IH.
Qed.

Lemma raw_merge_data_Ok qualtrics_data logs :
  Forall (λ log, ¬ id_is_None log) logs →
  ∃ st, merge_data qualtrics_data logs = Ok st ∧
    merged st
      = (λ log, lift log (merged_log qualtrics_data (strs log))) <$> logs ∧
    raw_counters_agree st (Merge.merge_data qualtrics_data (strs <$> logs)).
Proof.
  intros Hlogs.
  destruct (raw_merge_loop qualtrics_data logs Hlogs init Merge.init)
    as (st & Hrun & Hmerged & Hst); [done|].
  exists st. by split_and!.
Qed.

Lemma Forall_not_Exists_id logs :
  ¬ Exists id_is_None logs → Forall (λ log, ¬ id_is_None log) logs.
Proof. intros Hno. by apply (not_Exists_Forall id_is_None). Qed.

(** X15.  On the records of the log reader [merge_data] raises
    [AttributeError] exactly when the [qualtricsResponseId] of some record
    is [None].  Otherwise it returns, with one merged record per log record
    in order: the record [Merge.merge_data] builds from the log record's
    string fields, written over the log record, so that fields that are
    [None] and cells beyond the header stay as they were; and with the
    counters and the identifier set of that value-level merge. *)
Theorem raw_merge_data_outcome qualtrics_data logs :
  if decide (Exists id_is_None logs)
  then merge_data qualtrics_data logs = Fail AttributeError
  else ∃ st, merge_data qualtrics_data logs = Ok st ∧
    merged st = zip_with lift logs
                  (Merge.merged (Merge.merge_data qualtrics_data (strs <$> logs))) ∧
    raw_counters_agree st (Merge.merge_data qualtrics_data (strs <$> logs)).
Proof.
  case_decide as Hex.
  - by apply raw_merge_loop_None.
  - destruct (raw_merge_data_Ok qualtrics_data logs) as (st & Hrun & Hmerged & Hst).
    { by apply Forall_not_Exists_id. }
    exists st. split_and!; [done| |done].
    rewrite Hmerged, merged_merge_data. clear.
    induction logs as [|log logs IH]; [done|].
    rewrite !fmap_cons. cbn [zip_with]. by f_equal.
Qed.
End raw_merge.

(** ** [write_merged_csv] and [print_summary] on the records of the log reader *)

Section raw_writer.
Import Dashboard Raw.
Implicit Types (qualtrics_data : gmap pystr (gmap pystr pystr)).
Implicit Types (log : record) (logs merged_data : list record).

Lemma elem_of_raw_all_keys_foldl merged_data (U : gset pystr) (k : pystr) :
  k ∈ foldl (λ all_keys record, all_keys ∪ dom (fields record)) U merged_data ↔
  k ∈ U ∨ ∃ record, record ∈ merged_data ∧ k ∈ dom (fields record).
Proof.
  revert U. induction merged_data as [|r merged_data IH]; intros U; simpl.
  - split; [auto|]. intros [?|(r & []%elem_of_nil & _)]. done.
  - rewrite IH, elem_of_union. split.
    + intros [[?|?]|(r' & ? & ?)]; [auto| |].
      * right. exists r. split; [by left|done].
      * right. exists r'. split; [by right|done].
    + intros [?|(r' & [->|?]%elem_of_cons & ?)]; [auto|auto|eauto].
Qed.

Lemma elem_of_raw_all_keys merged_data (k : pystr) :
  k ∈ all_keys merged_data ↔
  ∃ record, record ∈ merged_data ∧ k ∈ dom (fields record).
Proof.
  unfold all_keys. rewrite elem_of_raw_all_keys_foldl.
  split; [|auto]. by intros [[]%not_elem_of_empty|?].
Qed.

Lemma existsb_has_rest merged_data :
  existsb has_rest merged_data = true ↔
  Exists (λ record, rest record ≠ None) merged_data.
Proof.
  induction merged_data as [|r merged_data IH]; simpl.
  - split; [done|]. by intros ?%Exists_nil.
  - rewrite orb_true_iff, IH, Exists_cons. unfold has_rest.
    destruct (rest r); split; intros [?|?]; auto; done.
Qed.

Lemma raw_writerows_covered (fieldnames : list pystr) merged_data :
  Forall (λ record, dom (fields record) ⊆ list_to_set fieldnames
                    ∧ rest record = None) merged_data →
  writerows fieldnames merged_data =
  ((λ record, cell record <$> fieldnames) <$> merged_data, None).
Proof.
  induction 1 as [|record merged_data Hrecord _ IH]; [done|].
  simpl. unfold dict_to_list. rewrite decide_True by done. by rewrite IH.
Qed.

Lemma raw_write_rest (iter : gset pystr → list pystr) merged_data :
  Exists (λ record, rest record ≠ None) merged_data →
  write_merged_csv iter merged_data =
  ({| Writer.stdout := []; Writer.output_file := None |}, Some AttributeError).
Proof.
  intros Hex. unfold write_merged_csv.
  destruct merged_data as [|r merged_data]; [by apply Exists_nil in Hex|].
  apply existsb_has_rest in Hex. by rewrite Hex.
Qed.

Lemma raw_write_cells (iter : gset pystr → list pystr) merged_data :
  (∀ s, iter s ≡ₚ elements s) →
  merged_data ≠ [] →
  Forall (λ record, rest record = None) merged_data →
  let fieldnames := Writer.ordered_keys iter (all_keys merged_data) in
  write_merged_csv iter merged_data =
  ({| Writer.stdout := [];
      Writer.output_file := Some {|
        Writer.header := fieldnames;
        Writer.body := (λ record, cell record <$> fieldnames)
                         <$> merged_data |} |}, None).
Proof.
  intros Hiter Hne Hrest fieldnames. unfold write_merged_csv.
  destruct (is_empty merged_data) eqn:Hempty.
  { by apply is_empty_true in Hempty. }
  destruct (existsb has_rest merged_data) eqn:Hex.
  { apply existsb_has_rest, Exists_exists in Hex as (r & Hr & Hrn).
    rewrite Forall_forall in Hrest. by apply Hrest in Hr. }
  fold fieldnames. rewrite raw_writerows_covered; [done|].
  apply Forall_forall. intros r Hr. rewrite Forall_forall in Hrest.
  split; [|by apply Hrest]. intros k Hk.
  apply elem_of_list_to_set, ordered_keys_cover; [done|].
  apply elem_of_raw_all_keys. eauto.
Qed.

(** X16.  [write_merged_csv] on the records of the log reader.  On an empty
    list it prints its notice and writes nothing.  When some record holds
    cells beyond the header, the key [None] is among the keys and the call
    raises [AttributeError] before the file is opened.  Otherwise it does
    not raise: the file has the column order of the keys as header and one
    row per record, a field that is [None] or missing written as the empty
    string. *)
Theorem raw_write_merged_csv_outcome (iter : gset pystr → list pystr)
    merged_data :
  (∀ s, iter s ≡ₚ elements s) →
  write_merged_csv iter merged_data =
    if is_empty merged_data then
      ({| Writer.stdout := [py "No data to write!"];
          Writer.output_file := None |}, None)
    else if decide (Exists (λ record, rest record ≠ None) merged_data) then
      ({| Writer.stdout := []; Writer.output_file := None |},
       Some AttributeError)
    else
      let fieldnames := Writer.ordered_keys iter (all_keys merged_data) in
      ({| Writer.stdout := [];
          Writer.output_file := Some {|
            Writer.header := fieldnames;
            Writer.body := (λ record, cell record <$> fieldnames)
                             <$> merged_data |} |}, None).
Proof.
  intros Hiter. destruct (is_empty merged_data) eqn:Hempty.
  { apply is_empty_true in Hempty as ->. done. }
  apply is_empty_false in Hempty. case_decide as Hex.
  - by apply raw_write_rest.
  - apply raw_write_cells; [done..|].
    apply (not_Exists_Forall (λ record, rest record ≠ None)) in Hex.
    eapply Forall_impl; [exact Hex|]. simpl. intros r Hr.
    by destruct (rest r); [exfalso; apply Hr|].
Qed.

Lemma raw_logs_without_id logs :
  Forall (λ log, ¬ id_is_None log) logs →
  logs_without_id logs =
  Ok (length (filter (λ log, foreign_key (strs log) = []) logs)).
Proof.
  induction 1 as [|log logs Hid _ IH]; [done|].
  simpl. rewrite response_id_of_str, IH by done. rewrite filter_cons.
  destruct (is_empty (foreign_key (strs log))) eqn:Hfk.
  - apply is_empty_true in Hfk. by rewrite decide_True.
  - apply is_empty_false in Hfk. by rewrite decide_False.
Qed.

Lemma raw_print_summary_Ok (iter : gset pystr → list pystr)
    qualtrics_data logs (m u : nat) (ids : gset pystr) :
  Forall (λ log, ¬ id_is_None log) logs →
  ∃ lines, print_summary iter qualtrics_data logs m u ids = (lines, None).
Proof.
  intros Hlogs. unfold print_summary.
  rewrite raw_logs_without_id by done. eauto.
Qed.
End raw_writer.

(** ** [main] *)

Section main.
Import Dashboard Raw.
Implicit Types (qualtrics_data : gmap pystr (gmap pystr pystr)).
Implicit Types (fieldnames row : list pystr) (log : record).

Lemma fields_to_record_None fieldnames row (h : pystr) :
  fields (to_record fieldnames row) !! h = Some None ↔
  ∃ j, fieldnames !! j = Some h ∧ length row ≤ j.
Proof.
  induction fieldnames as [|h' fieldnames IH] using rev_ind.
  - rewrite fields_to_record_nil, lookup_empty. split; [done|].
    by intros (j & ? & _).
  - rewrite fields_to_record_snoc. destruct (decide (h' = h)) as [->|Hne].
    + rewrite lookup_insert_eq. split.
      * intros [= Hrow]. exists (length fieldnames).
        split; [by rewrite lookup_app_r, Nat.sub_diag|].
        by apply lookup_ge_None.
      * intros (j & Hj & Hlen). f_equal. apply lookup_ge_None.
        apply lookup_lt_Some in Hj. rewrite length_app in Hj. simpl in Hj. lia.
    + rewrite lookup_insert_ne, IH by done. split.
      * intros (j & Hj & Hlen). exists j. split; [|done].
        by apply lookup_app_l_Some.
      * intros (j & Hj & Hlen). exists j. split; [|done].
        apply lookup_app_Some in Hj as [Hj|[_ Hj]]; [done|].
        by apply list_lookup_singleton_Some in Hj as [_ ?].
Qed.

Lemma log_row_ok_spec fieldnames row :
  log_row_ok fieldnames row ↔
  ¬ id_is_None (to_record fieldnames row)
  ∧ rest (to_record fieldnames row) = None.
Proof.
  unfold log_row_ok, id_is_None.
  rewrite fields_to_record_None, rest_to_record. split.
  - intros [Hlen Hid]. split.
    + intros (j & Hj & Hge). apply Hid.
      apply list_elem_of_lookup. exists (j - length row).
      rewrite lookup_drop. by replace (length row + (j - length row)) with j by lia.
    + destruct (Nat.ltb_spec (length fieldnames) (length row)); [lia|done].
  - intros [Hid Hrest]. split.
    + destruct (Nat.ltb_spec (length fieldnames) (length row)); [done|lia].
    + intros [j Hj]%list_elem_of_lookup. rewrite lookup_drop in Hj.
      apply Hid. exists (length row + j). split; [done|lia].
Qed.

Lemma read_dashboard_csv_eq (rows : list (list pystr)) :
  read_dashboard_csv rows = to_record (log_fieldnames rows) <$> log_data rows.
Proof. by destruct rows. Qed.

Lemma rows_ok_records (rows : list (list pystr)) :
  Forall (log_row_ok (log_fieldnames rows)) (log_data rows) ↔
  Forall (λ log, ¬ id_is_None log ∧ rest log = None) (read_dashboard_csv rows).
Proof.
  rewrite read_dashboard_csv_eq, Forall_fmap.
  apply Forall_proper; [|done]. intros row. apply log_row_ok_spec.
Qed.

(** A run that got past reading the survey file. *)
Lemma main_Return (iter : gset pystr → list pystr)
    (qualtrics_rows dashboard_rows : list (list pystr)) qualtrics_data :
  (∀ s, iter s ≡ₚ elements s) →
  Survey.read_qualtrics_csv qualtrics_rows = Return qualtrics_data →
  let logs := read_dashboard_csv dashboard_rows in
  let records :=
    (λ log, lift log (merged_log qualtrics_data (strs log))) <$> logs in
  let fieldnames := Writer.ordered_keys iter (all_keys records) in
  main iter (Some qualtrics_rows) (Some dashboard_rows) =
    if decide (Forall (log_row_ok (log_fieldnames dashboard_rows))
                      (log_data dashboard_rows))
    then
      (if is_empty logs then None
       else Some {| Writer.header := fieldnames;
                    Writer.body := (λ record, cell record <$> fieldnames)
                                     <$> records |},
       Ok ())
    else (None, Fail AttributeError).
Proof.
  intros Hiter Hq. cbv zeta. unfold main. rewrite Hq.
  pose proof (rows_ok_records dashboard_rows) as Hspec.
  revert Hspec. generalize (read_dashboard_csv dashboard_rows).
  intros logs Hspec. case_decide as Hok.
  - apply Hspec in Hok.
    assert (Forall (λ log, ¬ id_is_None log) logs) as Hids.
    { eapply Forall_impl; [exact Hok|]. by intros log [? _]. }
    destruct (raw_merge_data_Ok qualtrics_data logs Hids)
      as (st & -> & -> & _).
    destruct (raw_print_summary_Ok iter qualtrics_data logs
                (matched_count st) (unmatched_count st)
                (matched_response_ids st) Hids) as [lines Hlines].
    destruct logs as [|log logs].
    + done.
    + rewrite raw_write_cells; [|done|done|].
      * cbv zeta. by rewrite Hlines.
      * apply Forall_fmap.
        eapply Forall_impl; [exact Hok|]. by intros log' [_ ?].
  - rewrite Hspec in Hok.
    destruct (decide (Exists id_is_None logs)) as [Hex|Hex].
    { unfold merge_data. by rewrite raw_merge_loop_None. }
    apply Forall_not_Exists_id in Hex.
    destruct (raw_merge_data_Ok qualtrics_data logs Hex)
      as (st & -> & -> & _).
    rewrite raw_write_rest; [done|].
    apply not_Forall_Exists in Hok; [|apply _].
    apply Exists_fmap.
    apply Exists_exists in Hok as (log & Hlog & Hbad).
    apply Exists_exists. exists log. split; [done|]. simpl.
    rewrite Forall_forall in Hex. intros Hrest. apply Hbad. split; [|done].
    by apply Hex.
Qed.
Lemma is_empty_fmap {A B} (f : A → B) (l : list A) :
  is_empty (f <$> l) = is_empty l.
Proof. by destruct l. Qed.

Lemma read_qualtrics_csv_cases (rows : list (list pystr)) :
  (length rows < 3 ∧ Survey.read_qualtrics_csv rows = Raise StopIteration) ∨
  (3 ≤ length rows ∧ (ResponseId ∉ default [] (head rows)) ∧
   Survey.read_qualtrics_csv rows = Raise (SystemExit 1)) ∨
  (3 ≤ length rows ∧ ResponseId ∈ default [] (head rows) ∧
   ∃ qualtrics_data, Survey.read_qualtrics_csv rows = Return qualtrics_data).
Proof.
  destruct rows as [|headers [|meta1 [|meta2 data]]]; simpl;
    try (left; split; [lia|done]).
  right. destruct (Survey.index ResponseId headers) as [idx|] eqn:Hidx.
  - right. split_and!; [lia| |eauto].
    apply index_Some in Hidx. by eapply list_elem_of_lookup_2.
  - left. split_and!; [lia| |done]. by apply index_None.
Qed.

Lemma match_status_in_lift log (d : gmap pystr pystr) qualtrics_data :
  _match_status ∈ dom (fields (lift log (merged_log qualtrics_data d))).
Proof.
  unfold lift. simpl. rewrite dom_union_L, dom_fmap_L, elem_of_union. left.
  destruct (merged_log_cases qualtrics_data d)
    as [[_ ->]|[(_ & resp & _ & ->)|(_ & _ & ->)]];
    rewrite dom_insert_L; apply elem_of_union; left; by apply elem_of_singleton.
Qed.

(** X17.  A run of [main] that got past reading the survey file.  When every
    non-empty data row of the log file is no longer than the header and
    reaches each column named [qualtricsResponseId], the run ends normally;
    it writes a file iff there is such a row, and the file then has one row
    per non-empty data row, a header without repetition and the column
    [_match_status].  When some row is longer than the header, or ends
    before a [qualtricsResponseId] column, the run ends in [AttributeError]
    and writes no file. *)
Theorem main_run (iter : gset pystr → list pystr)
    (qualtrics_rows dashboard_rows : list (list pystr)) qualtrics_data :
  (∀ s, iter s ≡ₚ elements s) →
  Survey.read_qualtrics_csv qualtrics_rows = Return qualtrics_data →
  (Forall (log_row_ok (log_fieldnames dashboard_rows))
          (log_data dashboard_rows) →
   ∃ written,
     main iter (Some qualtrics_rows) (Some dashboard_rows) = (written, Ok ()) ∧
     (written = None ↔ log_data dashboard_rows = []) ∧
     ∀ file, written = Some file →
       length (Writer.body file) = length (log_data dashboard_rows) ∧
       NoDup (Writer.header file) ∧ _match_status ∈ Writer.header file) ∧
  (¬ Forall (log_row_ok (log_fieldnames dashboard_rows))
            (log_data dashboard_rows) →
   main iter (Some qualtrics_rows) (Some dashboard_rows)
     = (None, Fail AttributeError)).
Proof.
  intros Hiter Hq.
  pose proof (main_Return iter qualtrics_rows dashboard_rows qualtrics_data
                Hiter Hq) as Hmain. cbv zeta in Hmain.
  split; intros Hok.
  - rewrite decide_True in Hmain by done. rewrite Hmain.
    rewrite read_dashboard_csv_eq, is_empty_fmap.
    generalize (log_data dashboard_rows). intros data.
    eexists. split; [done|].
    destruct (is_empty data) eqn:Hempty.
    { apply is_empty_true in Hempty. by split. }
    apply is_empty_false in Hempty. split; [done|].
    intros file [= <-]. cbn [Writer.body Writer.header]. split_and!.
    + by rewrite !length_fmap.
    + by apply NoDup_ordered_keys.
    + apply ordered_keys_cover; [done|]. apply elem_of_raw_all_keys.
      destruct data as [|row data]; [done|].
      eexists. split; [|apply match_status_in_lift].
      apply list_elem_of_fmap. eexists. split; [done|].
      apply list_elem_of_fmap. exists row. split; [done|by left].
  - by rewrite decide_False in Hmain.
Qed.

(** X18.  How [main] ends on bad input.  It exits with status 1 exactly when
    an input file is missing, or the survey file has three rows or more and
    no column named [ResponseId]; it ends in [StopIteration] exactly when
    both files exist and the survey file has fewer than three rows; no run
    ends in another exception of these kinds, and none of these runs writes
    a file. *)
Theorem main_exits (iter : gset pystr → list pystr)
    (qualtrics_file dashboard_file : option (list (list pystr))) :
  (∀ s, iter s ≡ₚ elements s) →
  (main iter qualtrics_file dashboard_file
     = (None, Fail (Exception (SystemExit 1))) ↔
   qualtrics_file = None ∨ dashboard_file = None ∨
   ∃ rows, qualtrics_file = Some rows ∧ 3 ≤ length rows ∧
           ResponseId ∉ default [] (head rows)) ∧
  (main iter qualtrics_file dashboard_file
     = (None, Fail (Exception StopIteration)) ↔
   ∃ rows, qualtrics_file = Some rows ∧ dashboard_file ≠ None ∧
           length rows < 3) ∧
  (∀ written e,
     main iter qualtrics_file dashboard_file = (written, Fail (Exception e)) →
     written = None ∧ (e = SystemExit 1 ∨ e = StopIteration)).
Proof.
  intros Hiter.
  destruct qualtrics_file as [qrows|]; [|simpl].
  2: { split_and!.
       - split; [auto|done].
       - split; [done|]. by intros (? & ? & _).
       - intros written e [= <- <-]. auto. }
  destruct dashboard_file as [drows|]; [|simpl].
  2: { split_and!.
       - split; [auto|done].
       - split; [done|]. by intros (? & _ & ? & _).
       - intros written e [= <- <-]. auto. }
  destruct (read_qualtrics_csv_cases qrows)
    as [[Hlen Hread]|[(Hlen & Hin & Hread)|(Hlen & Hin & q & Hread)]].
  - assert (main iter (Some qrows) (Some drows)
            = (None, Fail (Exception StopIteration))) as ->.
    { unfold main. by rewrite Hread. }
    split_and!.
    + split; [done|]. intros [?|[?|(rows & [= <-] & ? & _)]]; try done. lia.
    + split; [|done]. intros _. exists qrows. by split_and!.
    + intros written e [= <- <-]. auto.
  - assert (main iter (Some qrows) (Some drows)
            = (None, Fail (Exception (SystemExit 1)))) as ->.
    { unfold main. by rewrite Hread. }
    split_and!.
    + split; [|done]. intros _. right; right. by exists qrows.
    + split; [done|]. intros (rows & [= <-] & _ & ?). lia.
    + intros written e [= <- <-]. auto.
  - pose proof (main_Return iter qrows drows q Hiter Hread) as Hmain.
    cbv zeta in Hmain. rewrite Hmain. split_and!.
    + split; [by case_decide|].
      intros [?|[?|(rows & [= <-] & _ & ?)]]; done.
    + split; [by case_decide|]. intros (rows & [= <-] & _ & ?). lia.
    + intros written e. by case_decide.
Qed.
End main.

(** ** [main] on well-formed files, and the summary *)

Section pipeline.
Import Dashboard Raw.
Implicit Types (qualtrics_data : gmap pystr (gmap pystr pystr)).
Implicit Types (fieldnames row : list pystr) (log : record).
Implicit Types (d : gmap pystr pystr).

Lemma strs_plain d : strs (plain d) = d.
Proof.
  apply map_eq. intros k. rewrite lookup_strs. unfold plain. simpl.
  rewrite lookup_fmap. by destruct (d !! k).
Qed.

Lemma plain_strs log :
  (∀ k, fields log !! k ≠ Some None) → rest log = None → plain (strs log) = log.
Proof.
  destruct log as [f r]. simpl. intros Hf ->. unfold plain, strs. simpl.
  f_equal. apply map_eq. intros k. rewrite lookup_fmap, lookup_omap.
  specialize (Hf k). by destruct (f !! k) as [[v|]|].
Qed.

Lemma to_record_plain fieldnames row :
  length row = length fieldnames →
  plain (strs (to_record fieldnames row)) = to_record fieldnames row.
Proof.
  intros Hlen. apply plain_strs.
  - intros k (j & Hj & Hge)%fields_to_record_None.
    apply lookup_lt_Some in Hj. lia.
  - rewrite rest_to_record.
    by destruct (Nat.ltb_spec (length fieldnames) (length row)); [lia|].
Qed.

Lemma dom_merged_log qualtrics_data d :
  dom d ⊆ dom (merged_log qualtrics_data d).
Proof.
  intros k Hk.
  destruct (merged_log_cases qualtrics_data d)
    as [[_ ->]|[(_ & resp & _ & ->)|(_ & _ & ->)]];
    rewrite dom_insert_L; apply elem_of_union; right; [done| |done].
  apply elem_of_dom_add_qualtrics_fields. by left.
Qed.

Lemma lift_plain d d' : dom d ⊆ dom d' → lift (plain d) d' = plain d'.
Proof.
  intros Hsub. unfold lift, plain. simpl. f_equal. apply map_eq. intros k.
  rewrite lookup_union, !lookup_fmap.
  destruct (d' !! k) as [v'|] eqn:Hk'; simpl; [by destruct (d !! k)|].
  destruct (d !! k) as [v|] eqn:Hk; [|done].
  exfalso. apply not_elem_of_dom in Hk'. apply Hk', Hsub, elem_of_dom. eauto.
Qed.

Lemma raw_all_keys_plain (merged_data : list (gmap pystr pystr)) :
  all_keys (plain <$> merged_data) = Writer.all_keys merged_data.
Proof.
  apply set_eq. intros k.
  rewrite elem_of_raw_all_keys, elem_of_all_keys. split.
  - intros (r & (m & -> & Hm)%list_elem_of_fmap & Hk).
    exists m. split; [done|]. unfold plain in Hk. simpl in Hk.
    by rewrite dom_fmap_L in Hk.
  - intros (m & Hm & Hk). exists (plain m). split.
    + apply list_elem_of_fmap. eauto.
    + unfold plain. simpl. by rewrite dom_fmap_L.
Qed.

Lemma cell_plain d (k : pystr) : cell (plain d) k = default [] (d !! k).
Proof. unfold cell, plain. simpl. rewrite lookup_fmap. by destruct (d !! k). Qed.

(** X19.  On well-formed files [main] is the pipeline of the value-level
    functions.  When the survey file is read and every non-empty data row
    of the log file has as many cells as its header, the log records have
    string fields only, the run ends normally, and the file it writes, or
    its writing none, is what [Writer.write_merged_csv] does with the
    records of [Merge.merge_data]. *)
Theorem main_well_formed (iter : gset pystr → list pystr)
    (qualtrics_rows dashboard_rows : list (list pystr)) qualtrics_data :
  (∀ s, iter s ≡ₚ elements s) →
  Survey.read_qualtrics_csv qualtrics_rows = Return qualtrics_data →
  Forall (λ row, length row = length (log_fieldnames dashboard_rows))
         (log_data dashboard_rows) →
  ∃ logs effects,
    read_dashboard_csv dashboard_rows = plain <$> logs ∧
    Writer.write_merged_csv iter
      (Merge.merged (Merge.merge_data qualtrics_data logs)) = Return effects ∧
    main iter (Some qualtrics_rows) (Some dashboard_rows)
      = (Writer.output_file effects, Ok ()).
Proof.
  intros Hiter Hq Hrect.
  pose proof (main_Return iter qualtrics_rows dashboard_rows qualtrics_data
                Hiter Hq) as Hmain. cbv zeta in Hmain.
  rewrite decide_True in Hmain.
  2: { eapply Forall_impl; [exact Hrect|]. intros row Hlen. simpl in Hlen.
       split; [lia|]. rewrite Hlen, drop_all. apply not_elem_of_nil. }
  set (logs := strs <$> read_dashboard_csv dashboard_rows).
  assert (read_dashboard_csv dashboard_rows = plain <$> logs) as Hplain.
  { unfold logs. rewrite read_dashboard_csv_eq, <- !list_fmap_compose.
    apply Forall_fmap_ext. eapply Forall_impl; [exact Hrect|].
    intros row Hlen. simpl. by rewrite to_record_plain. }
  rewrite Hplain in Hmain. rewrite is_empty_fmap in Hmain.
  assert ((λ log, lift log (merged_log qualtrics_data (strs log)))
            <$> (plain <$> logs)
          = plain <$> Merge.merged (Merge.merge_data qualtrics_data logs))
    as Hrecords.
  { rewrite merged_merge_data, <- !list_fmap_compose.
    apply list_fmap_ext. intros _ d _. simpl.
    rewrite strs_plain. apply lift_plain, dom_merged_log. }
  rewrite Hrecords, raw_all_keys_plain in Hmain.
  exists logs. destruct logs as [|log logs'] eqn:Hlogs.
  - eexists. split; [done|]. split; [done|]. by rewrite Hmain.
  - rewrite <- Hlogs in *.
    assert (Merge.merged (Merge.merge_data qualtrics_data logs) ≠ [])
      as Hne by (rewrite merged_merge_data, Hlogs; done).
    assert (is_empty logs = false) as Hempty by by rewrite Hlogs.
    rewrite Hempty in Hmain.
    destruct (Merge.merged (Merge.merge_data qualtrics_data logs))
      as [|m ms] eqn:Hms; [done|]. rewrite <- Hms in *.
    eexists. split; [done|]. split.
    + rewrite Hms. rewrite write_merged_csv_cons by done. by rewrite <- Hms.
    + rewrite Hmain. cbn [Writer.output_file]. do 3 f_equal.
      rewrite <- list_fmap_compose. apply list_fmap_ext. intros _ d _. simpl.
      apply list_fmap_ext. intros _ k _. apply cell_plain.
Qed.

Lemma raw_merge_data_Ok_ids qualtrics_data (logs : list record) st :
  merge_data qualtrics_data logs = Ok st →
  Forall (λ log, ¬ id_is_None log) logs.
Proof.
  intros Hrun. apply Forall_not_Exists_id. intros Hex.
  unfold merge_data in Hrun. by rewrite raw_merge_loop_None in Hrun.
Qed.

Lemma length_filter_impl {A} (P Q : A → Prop)
    `{!∀ x, Decision (P x)} `{!∀ x, Decision (Q x)} (l : list A) :
  (∀ x, P x → Q x) → length (filter P l) ≤ length (filter Q l).
Proof.
  intros HPQ. induction l as [|x l IH]; [done|]. rewrite !filter_cons.
  destruct (decide (P x)) as [HP|HP].
  - rewrite decide_True by auto. cbn [length]. lia.
  - destruct (decide (Q x)); cbn [length]; lia.
Qed.

(** X20.  After a merge that returned, [print_summary] does not raise, and
    its figures fit together: matched and unmatched entries add up to the
    entries loaded; the entries without identifier are among the unmatched;
    the distinct identifiers matched are at most the matched entries; and
    the responses with no matching log together with the distinct
    identifiers matched are the responses loaded. *)
Theorem summary_figures (iter : gset pystr → list pystr) qualtrics_data
    (logs : list record) st :
  merge_data qualtrics_data logs = Ok st →
  ∃ lines n,
    print_summary iter qualtrics_data logs (matched_count st)
      (unmatched_count st) (matched_response_ids st) = (lines, None) ∧
    logs_without_id logs = Ok n ∧
    n ≤ unmatched_count st ∧
    matched_count st + unmatched_count st = length logs ∧
    size (matched_response_ids st) ≤ matched_count st ∧
    size (unmatched_qualtrics qualtrics_data (matched_response_ids st))
      + size (matched_response_ids st) = size qualtrics_data.
Proof.
  intros Hrun. pose proof (raw_merge_data_Ok_ids _ _ _ Hrun) as Hids.
  destruct (raw_merge_data_Ok qualtrics_data logs Hids)
    as (st' & Hrun' & _ & (Hm & Hu & Hi)).
  assert (st' = st) as -> by congruence. clear Hrun'.
  destruct (counters_foldl qualtrics_data Merge.init (strs <$> logs))
    as (Hvm & Hvu & Hvi).
  unfold Merge.merge_data in Hm, Hu, Hi. rewrite Hvm in Hm.
  rewrite Hvu in Hu. rewrite Hvi in Hi. simpl in Hm, Hu, Hi.
  rewrite union_empty_l_L in Hi.
  destruct (raw_print_summary_Ok iter qualtrics_data logs (matched_count st)
              (unmatched_count st) (matched_response_ids st) Hids)
    as [lines Hlines].
  exists lines, (length (filter (λ log, foreign_key (strs log) = []) logs)).
  split_and!.
  - done.
  - by apply raw_logs_without_id.
  - rewrite Hu.
    rewrite <- (length_fmap strs (filter _ logs)).
    assert (strs <$> filter (λ log, foreign_key (strs log) = []) logs
            = filter (λ d, foreign_key d = []) (strs <$> logs)) as ->.
    { clear. induction logs as [|log logs IH]; [done|].
      rewrite fmap_cons, !filter_cons. case_decide; by rewrite ?fmap_cons, IH. }
    apply length_filter_impl. intros d Hd [Hne _]. done.
  - rewrite Hm, Hu, <- (length_fmap strs logs).
    generalize (strs <$> logs). clear. intros l.
    induction l as [|d l IH]; [done|]. rewrite !filter_cons.
    destruct (decide (matches qualtrics_data d)).
    + rewrite decide_False by tauto. cbn [length]. lia.
    + rewrite decide_True by done. cbn [length]. lia.
  - rewrite Hi, Hm. etrans; [apply size_list_to_set_le|].
    by rewrite length_fmap.
  - unfold unmatched_qualtrics.
    assert (matched_response_ids st ⊆ dom qualtrics_data) as Hsub.
    { rewrite Hi. intros rid.
      rewrite elem_of_list_to_set, list_elem_of_fmap.
      intros (d & -> & [[_ ?] _]%list_elem_of_filter). done. }
    rewrite size_difference by done.
    pose proof (subseteq_size _ _ Hsub) as Hle.
    rewrite size_dom in Hle |- *. lia.
Qed.
End pipeline.

(** ** The further properties on the example *)

Lemma read_qualtrics_csv_keys_trimmed_witness :
  py "R1" ≠ [] ∧ strip (py "R1") = py "R1".
Proof.
  apply (read_qualtrics_csv_keys_trimmed Ex.survey_rows Ex.survey (py "R1")).
  - vm_compute. reflexivity.
  - apply elem_of_dom. exists Ex.response. reflexivity.
Defined.

Lemma read_qualtrics_csv_entries_witness :
  ∃ idx, Survey.index ResponseId [py "ResponseId"; py "Q1"] = Some idx ∧
    size Ex.survey ≤ length [[py "R1"; py "yes"]] ∧
    ∀ rid resp, Ex.survey !! rid = Some resp →
      dom resp = list_to_set [py "ResponseId"; py "Q1"] ∧
      ∃ row, row ∈ [[py "R1"; py "yes"]] ∧ ¬ dropped idx row ∧
             row_id idx row = rid ∧
             resp = Survey.response_dict [py "ResponseId"; py "Q1"] row.
Proof.
  apply (read_qualtrics_csv_entries [py "ResponseId"; py "Q1"]
           [py "Response ID"; py "Question 1"]
           [py "{ImportId:_recordId}"; py "{ImportId:QID1}"]
           [[py "R1"; py "yes"]] Ex.survey).
  vm_compute. reflexivity.
Defined.

Lemma read_qualtrics_csv_key_is_own_id_witness :
  ∃ cell, Ex.response !! ResponseId = Some cell ∧ strip cell = py "R1" ∧
    ∃ row, row ∈ [[py "R1"; py "yes"]] ∧ row !! 0 = Some cell.
Proof.
  apply (read_qualtrics_csv_key_is_own_id [py "ResponseId"; py "Q1"]
           [py "Response ID"; py "Question 1"]
           [py "{ImportId:_recordId}"; py "{ImportId:QID1}"]
           [[py "R1"; py "yes"]] Ex.survey 0 (py "R1") Ex.response).
  - vm_compute. reflexivity.
  - reflexivity.
  - intros [|[|j]] Hj H; [lia|discriminate H|discriminate H].
  - reflexivity.
Defined.

Lemma merge_data_record_keys_witness :
  py "qualtrics_Q1" ∈ dom (merged_log Ex.survey Ex.log) ↔
    py "qualtrics_Q1" = _match_status ∨ py "qualtrics_Q1" ∈ dom Ex.log ∨
    ∃ resp k', foreign_key Ex.log ≠ [] ∧
      Ex.survey !! foreign_key Ex.log = Some resp ∧
      k' ∈ dom resp ∧ py "qualtrics_Q1" = qualtrics_ ++ k'.
Proof.
  apply (merge_data_record_keys Ex.survey [Ex.log] 0 Ex.log
           (merged_log Ex.survey Ex.log)).
  - reflexivity.
  - vm_compute. reflexivity.
Defined.

Lemma survey_cells_reach_merged_record_witness :
  merged_log Ex.survey Ex.log !! _match_status = Some (py "matched") ∧
  ∀ j h, [py "ResponseId"; py "Q1"] !! j = Some h →
         (∀ j', j < j' → [py "ResponseId"; py "Q1"] !! j' ≠ Some h) →
         merged_log Ex.survey Ex.log !! (qualtrics_ ++ h)
           = Some (default [] ([py "R1"; py "yes"] !! j)).
Proof.
  apply (survey_cells_reach_merged_record [py "ResponseId"; py "Q1"]
           [py "Response ID"; py "Question 1"]
           [py "{ImportId:_recordId}"; py "{ImportId:QID1}"]
           [py "R1"; py "yes"] [] [] 0 Ex.survey [Ex.log] 0 Ex.log
           (merged_log Ex.survey Ex.log)).
  - vm_compute. reflexivity.
  - reflexivity.
  - intros [H|[H|H]]; [discriminate H|simpl in H; lia|discriminate H].
  - intros r Hr. by apply elem_of_nil in Hr.
  - reflexivity.
  - vm_compute. reflexivity.
  - vm_compute. reflexivity.
Defined.

Lemma store_merge_data_refines_witness :
  ∃ st os,
    Forall2 (λ log o, Ex.objects !! log = Some o) Ex.log_refs os ∧
    Store.merge_data Ex.survey_refs Ex.log_refs Ex.objects =
      Some (st, Ex.objects ++ Merge.merged
                  (Merge.merge_data (deref_index Ex.objects Ex.survey_refs) os)) ∧
    Store.merged st = seq (length Ex.objects) (length Ex.log_refs) ∧
    NoDup (Store.merged st) ∧
    counters_agree st
      (Merge.merge_data (deref_index Ex.objects Ex.survey_refs) os).
Proof.
  apply (store_merge_data_refines Ex.objects Ex.survey_refs Ex.log_refs).
  split.
  - intros rid r Hr. unfold Ex.survey_refs in Hr.
    apply lookup_insert_Some in Hr as [[_ <-]|[_ Hr]].
    + exists Ex.response. reflexivity.
    + rewrite lookup_empty in Hr. discriminate Hr.
  - repeat constructor; exists Ex.log; reflexivity.
Defined.

Lemma ordered_keys_exact_witness :
  NoDup (Writer.ordered_keys elements
           (Writer.all_keys [merged_log Ex.survey Ex.log])) ∧
  ∀ k, k ∈ Writer.ordered_keys elements
             (Writer.all_keys [merged_log Ex.survey Ex.log]) ↔
       ∃ record, record ∈ [merged_log Ex.survey Ex.log] ∧ k ∈ dom record.
Proof.
  apply (ordered_keys_exact elements [merged_log Ex.survey Ex.log]).
  intros s. reflexivity.
Defined.

Lemma raw_write_merged_csv_outcome_witness :
  Raw.write_merged_csv elements (Raw.merged ExRun.merged_state) =
    if is_empty (Raw.merged ExRun.merged_state) then
      ({| Writer.stdout := [py "No data to write!"];
          Writer.output_file := None |}, None)
    else if decide (Exists (λ record, Dashboard.rest record ≠ None)
                           (Raw.merged ExRun.merged_state)) then
      ({| Writer.stdout := []; Writer.output_file := None |},
       Some Raw.AttributeError)
    else
      let fieldnames :=
        Writer.ordered_keys elements
          (Raw.all_keys (Raw.merged ExRun.merged_state)) in
      ({| Writer.stdout := [];
          Writer.output_file := Some {|
            Writer.header := fieldnames;
            Writer.body := (λ record, Raw.cell record <$> fieldnames)
                             <$> Raw.merged ExRun.merged_state |} |}, None).
Proof.
  apply (raw_write_merged_csv_outcome elements
           (Raw.merged ExRun.merged_state)).
  intros s. reflexivity.
Defined.

Lemma main_run_witness :
  (Forall (log_row_ok (log_fieldnames ExRun.log_rows))
          (log_data ExRun.log_rows) →
   ∃ written,
     Raw.main elements (Some Ex.survey_rows) (Some ExRun.log_rows)
       = (written, Raw.Ok ()) ∧
     (written = None ↔ log_data ExRun.log_rows = []) ∧
     ∀ file, written = Some file →
       length (Writer.body file) = length (log_data ExRun.log_rows) ∧
       NoDup (Writer.header file) ∧ _match_status ∈ Writer.header file) ∧
  (¬ Forall (log_row_ok (log_fieldnames ExRun.log_rows))
            (log_data ExRun.log_rows) →
   Raw.main elements (Some Ex.survey_rows) (Some ExRun.log_rows)
     = (None, Raw.Fail Raw.AttributeError)).
Proof.
  apply (main_run elements Ex.survey_rows ExRun.log_rows Ex.survey).
  - intros s. reflexivity.
  - vm_compute. reflexivity.
Defined.

Lemma main_exits_witness :
  (Raw.main elements (Some Ex.survey_rows) None
     = (None, Raw.Fail (Raw.Exception (SystemExit 1))) ↔
   Some Ex.survey_rows = None ∨ (None : option (list (list pystr))) = None ∨
   ∃ rows, Some Ex.survey_rows = Some rows ∧ 3 ≤ length rows ∧
           ResponseId ∉ default [] (head rows)) ∧
  (Raw.main elements (Some Ex.survey_rows) None
     = (None, Raw.Fail (Raw.Exception StopIteration)) ↔
   ∃ rows, Some Ex.survey_rows = Some rows ∧
           (None : option (list (list pystr))) ≠ None ∧ length rows < 3) ∧
  (∀ written e,
     Raw.main elements (Some Ex.survey_rows) None
       = (written, Raw.Fail (Raw.Exception e)) →
     written = None ∧ (e = SystemExit 1 ∨ e = StopIteration)).
Proof.
  apply (main_exits elements (Some Ex.survey_rows) None).
  intros s. reflexivity.
Defined.

Lemma main_well_formed_witness :
  ∃ logs effects,
    Dashboard.read_dashboard_csv ExRun.log_rows = plain <$> logs ∧
    Writer.write_merged_csv elements
      (Merge.merged (Merge.merge_data Ex.survey logs)) = Return effects ∧
    Raw.main elements (Some Ex.survey_rows) (Some ExRun.log_rows)
      = (Writer.output_file effects, Raw.Ok ()).
Proof.
  apply (main_well_formed elements Ex.survey_rows ExRun.log_rows Ex.survey).
  - intros s. reflexivity.
  - vm_compute. reflexivity.
  - vm_compute. constructor; [reflexivity|constructor].
Defined.

Lemma summary_figures_witness :
  ∃ lines n,
    Raw.print_summary elements Ex.survey [plain Ex.log]
      (Raw.matched_count ExRun.merged_state)
      (Raw.unmatched_count ExRun.merged_state)
      (Raw.matched_response_ids ExRun.merged_state) = (lines, None) ∧
    Raw.logs_without_id [plain Ex.log] = Raw.Ok n ∧
    n ≤ Raw.unmatched_count ExRun.merged_state ∧
    Raw.matched_count ExRun.merged_state
      + Raw.unmatched_count ExRun.merged_state = length [plain Ex.log] ∧
    size (Raw.matched_response_ids ExRun.merged_state)
      ≤ Raw.matched_count ExRun.merged_state ∧
    size (Raw.unmatched_qualtrics Ex.survey
            (Raw.matched_response_ids ExRun.merged_state))
      + size (Raw.matched_response_ids ExRun.merged_state) = size Ex.survey.
Proof.
  apply (summary_figures elements Ex.survey [plain Ex.log] ExRun.merged_state).
  vm_compute. reflexivity.
Defined.

(** ** Last write wins, cell by cell *)

Section last_write.
Import Survey.

(** C6.  Last write wins in the Survey Table Reader: when two retained
    data rows [row1] and [row2] carry the same identifier and [row2] is the
    last retained row with it, the reader returns without error and the
    entry of that identifier holds the values of [row2]: its keys are the
    header's column names, and every column whose name is not repeated
    later in the header holds the cell of [row2] in that column, or the
    empty string when [row2] ends before it. *)
Theorem read_qualtrics_csv_last_write_wins
    (headers meta1 meta2 : list pystr) (data1 data2 data3 : list (list pystr))
    (row1 row2 : list pystr) (idx : nat) :
  index ResponseId headers = Some idx →
  ¬ dropped idx row1 → ¬ dropped idx row2 →
  row_id idx row1 = row_id idx row2 →
  (∀ r, r ∈ data3 → dropped idx r ∨ row_id idx r ≠ row_id idx row2) →
  ∃ qualtrics_data resp,
    read_qualtrics_csv
      (headers :: meta1 :: meta2 :: data1 ++ row1 :: data2 ++ row2 :: data3)
      = Return qualtrics_data ∧
    qualtrics_data !! row_id idx row2 = Some resp ∧
    dom resp = list_to_set headers ∧
    ∀ i h, headers !! i = Some h →
           (∀ j, i < j → headers !! j ≠ Some h) →
           resp !! h = Some (default [] (row2 !! i)).
Proof.
  intros Hidx _ Hk2 _ Hrest. simpl. rewrite Hidx.
  eexists _, (response_dict headers row2). split_and!.
  - done.
  - change (data1 ++ row1 :: data2 ++ row2 :: data3)
      with (data1 ++ (row1 :: data2) ++ row2 :: data3).
    rewrite app_assoc. by apply read_rows_last.
  - apply dom_response_dict.
  - intros i h. apply response_dict_last.
Qed.
End last_write.

Lemma read_qualtrics_csv_last_write_wins_witness :
  ∃ qualtrics_data resp,
    Survey.read_qualtrics_csv
      ([py "ResponseId"; py "Q1"] :: [] :: [] ::
       [] ++ [py "R1"; py "yes"] :: [] ++ [py " R1"; py "no"] :: [])
      = Return qualtrics_data ∧
    qualtrics_data !! row_id 0 [py " R1"; py "no"] = Some resp ∧
    dom resp = list_to_set [py "ResponseId"; py "Q1"] ∧
    ∀ i h, [py "ResponseId"; py "Q1"] !! i = Some h →
           (∀ j, i < j → [py "ResponseId"; py "Q1"] !! j ≠ Some h) →
           resp !! h = Some (default [] ([py " R1"; py "no"] !! i)).
Proof.
  apply (read_qualtrics_csv_last_write_wins
           [py "ResponseId"; py "Q1"] [] [] [] [] []
           [py "R1"; py "yes"] [py " R1"; py "no"] 0).
  - reflexivity.
  - intros [H|[H|H]]; [discriminate H|simpl in H; lia|discriminate H].
  - intros [H|[H|H]]; [discriminate H|simpl in H; lia|discriminate H].
  - reflexivity.
  - intros r Hr. by apply elem_of_nil in Hr.
Defined.

(** ** Count and order of the merge, on the records of the log reader *)

Section raw_count.
Import Dashboard Raw.
Implicit Types (qualtrics_data : gmap pystr (gmap pystr pystr)).
Implicit Types (log : record) (d : gmap pystr pystr).




End raw_count.



(** ** The file written, on the records of the log reader *)

Section raw_file.
Import Dashboard Raw.
Implicit Types (merged_data : list record).


(** X13.  The file holds the records, field by field.  For a non-empty list
    of records none of which holds cells beyond the header, the file has
    one row per record, in order, each as long as the header; the cell of a
    row in a column is the record's string for the column's name, and the
    empty string when that field is [None] or missing; and every string
    field of a record is read back from its row at the one column that
    bears the field's name. *)
Theorem write_merged_csv_cells (iter : gset pystr → list pystr) merged_data :
  (∀ s, iter s ≡ₚ elements s) →
  merged_data ≠ [] →
  Forall (λ record, rest record = None) merged_data →
  ∃ file,
    write_merged_csv iter merged_data =
      ({| Writer.stdout := []; Writer.output_file := Some file |}, None) ∧
    length (Writer.body file) = length merged_data ∧
    ∀ i record, merged_data !! i = Some record →
      ∃ row, Writer.body file !! i = Some row ∧
        length row = length (Writer.header file) ∧
        (∀ j k v, Writer.header file !! j = Some k →
                  fields record !! k = Some (Some v) → row !! j = Some v) ∧
        (∀ j k, Writer.header file !! j = Some k →
                (∀ v, fields record !! k ≠ Some (Some v)) →
                row !! j = Some []) ∧
        (∀ k v, fields record !! k = Some (Some v) →
           ∃ j, Writer.header file !! j = Some k ∧ row !! j = Some v ∧
                ∀ j', Writer.header file !! j' = Some k → j' = j).
Proof.
  intros Hiter Hne Hrest. rewrite raw_write_cells by done. cbv zeta.
  set (fieldnames := Writer.ordered_keys iter (all_keys merged_data)).
  eexists. split; [done|]. cbn [Writer.body Writer.header].
  split; [by rewrite length_fmap|].
  intros i record Hrecord. exists (cell record <$> fieldnames).
  split_and!.
  - by rewrite list_lookup_fmap, Hrecord.
  - by rewrite length_fmap.
  - intros j k v Hj Hk. rewrite list_lookup_fmap, Hj. simpl.
    unfold cell. by rewrite Hk.
  - intros j k Hj Hk. rewrite list_lookup_fmap, Hj. simpl. unfold cell.
    destruct (fields record !! k) as [[v|]|] eqn:Hv; [|done..].
    by destruct (Hk v).
  - intros k v Hk.
    assert (k ∈ fieldnames) as [j Hj]%list_elem_of_lookup_1.
    { apply ordered_keys_cover; [done|]. apply elem_of_raw_all_keys.
      exists record. split; [by eapply list_elem_of_lookup_2|].
      apply elem_of_dom. eauto. }
    exists j. split_and!; [done| |].
    + rewrite list_lookup_fmap, Hj. simpl. unfold cell. by rewrite Hk.
    + intros j' Hj'. eapply NoDup_lookup; [|done..].
      by apply NoDup_ordered_keys.
Qed.
End raw_file.



Lemma write_merged_csv_cells_witness :
  ∃ file,
    Raw.write_merged_csv elements (Raw.merged ExRun.merged_state) =
      ({| Writer.stdout := []; Writer.output_file := Some file |}, None) ∧
    length (Writer.body file) = length (Raw.merged ExRun.merged_state) ∧
    ∀ i record, Raw.merged ExRun.merged_state !! i = Some record →
      ∃ row, Writer.body file !! i = Some row ∧
        length row = length (Writer.header file) ∧
        (∀ j k v, Writer.header file !! j = Some k →
                  Dashboard.fields record !! k = Some (Some v) →
                  row !! j = Some v) ∧
        (∀ j k, Writer.header file !! j = Some k →
                (∀ v, Dashboard.fields record !! k ≠ Some (Some v)) →
                row !! j = Some []) ∧
        (∀ k v, Dashboard.fields record !! k = Some (Some v) →
           ∃ j, Writer.header file !! j = Some k ∧ row !! j = Some v ∧
                ∀ j', Writer.header file !! j' = Some k → j' = j).
Proof.
  apply (write_merged_csv_cells elements (Raw.merged ExRun.merged_state)).
  - intros s. reflexivity.
  - discriminate.
  - constructor; [reflexivity|constructor].
Defined.
